(** * the_snake: a shallow embedding of [the_snake.py]

    The game is a single Python module: two classes ([Apple], [Snake]) over a
    base class [GameObject], the input handler [handle_keys] and the loop
    [main].  The embedding keeps

    - pixel coordinates as pairs of [Z] (Python [int]; [%] with a positive
      divisor is [Z.modulo], [//] is [Z.div]);
    - Python [list] objects in an explicit heap, because the apple is built
      with [occupied_positions=snake.positions] and so shares the snake's list
      object: [insert]/[pop] are seen through the alias, an assignment of a
      new list to [snake.positions] is not;
    - [random.randint] / [random.choice] as reads from a tape of raw draws;
    - exceptions and the end of the tape as the [Halt] outcome. *)

From Stdlib Require Import ZArith Lia List Bool.
From stdpp Require Import base decidable option list.
Import ListNotations.
Local Open Scope Z_scope.

(** ** Module-level constants *)

Definition POINTER : Type := Z * Z.
Definition COLOR : Type := Z * Z * Z.

Definition SCREEN_WIDTH : Z := 640.
Definition SCREEN_HEIGHT : Z := 480.
Definition GRID_SIZE : Z := 20.
Definition GRID_WIDTH : Z := SCREEN_WIDTH / GRID_SIZE.
Definition GRID_HEIGHT : Z := SCREEN_HEIGHT / GRID_SIZE.

Definition UP : POINTER := (0, -1).
Definition DOWN : POINTER := (0, 1).
Definition LEFT : POINTER := (-1, 0).
Definition RIGHT : POINTER := (1, 0).

Definition BOARD_BACKGROUND_COLOR : COLOR := (0, 0, 0).
Definition BORDER_COLOR : COLOR := (93, 216, 228).
Definition APPLE_COLOR : COLOR := (255, 0, 0).
Definition SNAKE_COLOR : COLOR := (0, 255, 0).
Definition DEFAULT_COLOR : COLOR := (2, 2, 2).

Definition INITIAL_SPEED : Z := 10.
Definition MIN_SPEED : Z := 5.
Definition MAX_SPEED : Z := 20.

Definition SCREEN_CENTER : POINTER := (SCREEN_WIDTH / 2, SCREEN_HEIGHT / 2).

(** ** Effects: heap of list objects, random tape, exceptions *)

(** A reference to a Python [list] object: its index in the heap. *)
Definition loc : Type := nat.

(** Why a computation stopped.  [IndexError], [ValueError] and [SystemExit]
    are the Python exceptions the module can raise; [TapeExhausted] says the
    finite tape of random draws ran out (a [while True] loop that has not left
    yet), [DanglingRef] that a reference outside the heap was read. *)
Inductive halt : Type :=
| IndexError
| ValueError
| SystemExit
| TapeExhausted
| DanglingRef.

Inductive outcome (A : Type) : Type :=
| Ok (a : A)
| Halt (h : halt).
Arguments Ok {A} a.
Arguments Halt {A} h.

Record Mem : Type := mkMem {
  heap : list (list POINTER);
  tape : list Z
}.

Definition M (A : Type) : Type := Mem -> outcome (A * Mem).

Definition ret {A} (a : A) : M A := fun m => Ok (a, m).

Definition bind {A B} (c : M A) (k : A -> M B) : M B :=
  fun m => match c m with
           | Ok (a, m') => k a m'
           | Halt h => Halt h
           end.

Definition raise {A} (h : halt) : M A := fun _ => Halt h.

#[global] Instance M_ret : MRet M := @ret.
#[global] Instance M_bind : MBind M := fun A B k c => bind c k.

(** [list(...)] / a list display: a fresh list object. *)
Definition alloc (l : list POINTER) : M loc :=
  fun m => Ok (List.length (heap m), mkMem (heap m ++ [l]) (tape m)).

Definition load (r : loc) : M (list POINTER) :=
  fun m => match heap m !! r with
           | Some l => Ok (l, m)
           | None => Halt DanglingRef
           end.

(** In-place mutation of the list object at [r]. *)
Definition store (r : loc) (l : list POINTER) : M unit :=
  fun m => Ok (tt, mkMem (<[r := l]> (heap m)) (tape m)).

(** One raw draw from the random source. *)
Definition draw_raw : M Z :=
  fun m => match tape m with
           | [] => Halt TapeExhausted
           | r :: t => Ok (r, mkMem (heap m) t)
           end.

(** [random.randint(a, b)]: some integer [N] with [a <= N <= b]; the raw draw
    selects which one.  An empty range raises [ValueError]. *)
Definition randint (a b : Z) : M Z :=
  if b <? a then raise ValueError
  else r ← draw_raw; mret (a + r mod (b - a + 1)).

(** [random.choice(seq)]: an element of a non-empty sequence; [IndexError] on
    an empty one. *)
Definition choice {A} (seq : list A) : M A :=
  match seq with
  | [] => raise IndexError
  | _ => r ← draw_raw;
         match seq !! Z.to_nat (r mod Z.of_nat (List.length seq)) with
         | Some x => mret x
         | None => raise IndexError
         end
  end.

(** [list.pop()]: the last element and the list without it. *)
Definition list_pop {A} (l : list A) : option (A * list A) :=
  match last l with
  | Some x => Some (x, removelast l)
  | None => None
  end.

(** ** Drawing primitives ([pg.Rect], [pg.draw.rect]) *)

Inductive DrawCmd : Type :=
| FillRect (color : COLOR) (topleft size : POINTER)
| OutlineRect (color : COLOR) (topleft size : POINTER) (width : Z).

(** ** class Apple *)

Module Apple.

Record t : Type := mk {
  position : POINTER;
  body_color : COLOR;
  occupied_positions : loc
}.

Definition set_position (p : POINTER) (self : t) : t :=
  mk p (body_color self) (occupied_positions self).

(** [randomize_position]: the [while True] loop draws a cell and leaves
    when the cell is not in the list object behind [occupied_positions].
    Each round takes two draws, so [fuel] rounds with [fuel] above the
    length of the tape never end for lack of fuel: the loop stops with
    [TapeExhausted] exactly when the draws supplied are all rejected. *)
Fixpoint randomize_rounds (fuel : nat) (self : t) : M t :=
  match fuel with
  | O => raise TapeExhausted
  | S fuel' =>
      col ← randint 0 (GRID_WIDTH - 1);
      row ← randint 0 (GRID_HEIGHT - 1);
      let new_position := (col * GRID_SIZE, row * GRID_SIZE) in
      occupied ← load (occupied_positions self);
      if decide (new_position ∈ occupied)
      then randomize_rounds fuel' self
      else mret (set_position new_position self)
  end.

Definition randomize_position (self : t) : M t :=
  fun m => randomize_rounds (S (List.length (tape m))) self m.

(** [Apple(occupied_positions=..., body_color=APPLE_COLOR)]; [None] for the
    argument allocates the default empty list. *)
Definition init (occupied : option loc) : M t :=
  r ← match occupied with
      | Some r => mret r
      | None => alloc []
      end;
  randomize_position (mk SCREEN_CENTER APPLE_COLOR r).

Definition draw (self : t) : list DrawCmd :=
  [ FillRect (body_color self) (position self) (GRID_SIZE, GRID_SIZE);
    OutlineRect BORDER_COLOR (position self) (GRID_SIZE, GRID_SIZE) 1 ].

End Apple.

(** ** class Snake *)

Module Snake.

Record t : Type := mk {
  position : POINTER;
  body_color : COLOR;
  length : Z;
  positions : loc;
  direction : POINTER;
  next_direction : option POINTER;
  last : option POINTER
}.

Definition set_length (n : Z) (self : t) : t :=
  mk (position self) (body_color self) n (positions self)
     (direction self) (next_direction self) (last self).
Definition set_positions (r : loc) (self : t) : t :=
  mk (position self) (body_color self) (length self) r
     (direction self) (next_direction self) (last self).
Definition set_direction (d : POINTER) (self : t) : t :=
  mk (position self) (body_color self) (length self) (positions self)
     d (next_direction self) (last self).
Definition set_next_direction (d : option POINTER) (self : t) : t :=
  mk (position self) (body_color self) (length self) (positions self)
     (direction self) d (last self).
Definition set_last (c : option POINTER) (self : t) : t :=
  mk (position self) (body_color self) (length self) (positions self)
     (direction self) (next_direction self) c.

(** [Snake()]: the base class puts [position] at the screen centre; the
    body is a fresh one-element list. *)
Definition init : M t :=
  let position := SCREEN_CENTER in
  r ← alloc [position];
  d ← choice [UP; DOWN; LEFT; RIGHT];
  mret (mk position SNAKE_COLOR 1 r d None None).

(** [self.positions[0]] *)
Definition get_head_position (self : t) : M POINTER :=
  ps ← load (positions self);
  match ps !! 0%nat with
  | Some p => mret p
  | None => raise IndexError
  end.

Definition move (self : t) : M t :=
  let self := match next_direction self with
              | Some d => set_direction d self
              | None => self
              end in
  '(x, y) ← get_head_position self;
  let '(dx, dy) := direction self in
  let new_head :=
    ((x + dx * GRID_SIZE + SCREEN_WIDTH) mod SCREEN_WIDTH,
     (y + dy * GRID_SIZE + SCREEN_HEIGHT) mod SCREEN_HEIGHT) in
  ps ← load (positions self);
  store (positions self) (new_head :: ps);;
  ps ← load (positions self);
  if Z.of_nat (List.length ps) >? length self then
    match list_pop ps with
    | Some (tail, ps') =>
        store (positions self) ps';;
        mret (set_last (Some tail) self)
    | None => raise IndexError
    end
  else mret self.

Definition update_direction (self : t) : t :=
  match next_direction self with
  | Some d => set_next_direction None (set_direction d self)
  | None => self
  end.

Definition draw (self : t) : M (list DrawCmd) :=
  ps ← load (positions self);
  let segments :=
    flat_map (fun p => [ FillRect (body_color self) p (GRID_SIZE, GRID_SIZE);
                         OutlineRect BORDER_COLOR p (GRID_SIZE, GRID_SIZE) 1 ])
             ps in
  match ps !! 0%nat with
  | None => raise IndexError
  | Some h =>
      let head :=
        [ FillRect (body_color self) h (GRID_SIZE, GRID_SIZE);
          OutlineRect BORDER_COLOR h (GRID_SIZE, GRID_SIZE) 1 ] in
      let erase :=
        match last self with
        | Some c => [ FillRect BOARD_BACKGROUND_COLOR c (GRID_SIZE, GRID_SIZE) ]
        | None => []
        end in
      mret (segments ++ head ++ erase)
  end.

(** [reset] binds [positions] to a NEW list object and does not touch
    [last]. *)
Definition reset (self : t) : M t :=
  let self := set_length 1 self in
  r ← alloc [SCREEN_CENTER];
  let self := set_positions r self in
  d ← choice [UP; DOWN; LEFT; RIGHT];
  let self := set_direction d self in
  mret (set_next_direction None self).

End Snake.

(** ** handle_keys *)

Inductive Key : Type :=
| K_UP | K_DOWN | K_LEFT | K_RIGHT
| K_ESCAPE | K_PLUS | K_EQUALS | K_MINUS
| K_OTHER.

Inductive Event : Type :=
| QUIT
| KEYDOWN (key : Key)
| OTHER_EVENT.

(** The dict [direction_keys]. *)
Definition direction_keys (k : Key) : option POINTER :=
  match k with
  | K_UP => Some UP
  | K_DOWN => Some DOWN
  | K_LEFT => Some LEFT
  | K_RIGHT => Some RIGHT
  | _ => None
  end.

Definition is_quit (e : Event) : bool :=
  match e with
  | QUIT => true
  | KEYDOWN K_ESCAPE => true
  | _ => false
  end.

(** The body of the [for event in pg.event.get()] loop after the quit test. *)
Definition handle_event (snake : Snake.t) (speed : Z) (event : Event)
  : Snake.t * Z :=
  match event with
  | KEYDOWN key =>
      let snake :=
        match direction_keys key with
        | Some new_direction =>
            if decide ((new_direction.1 + (Snake.direction snake).1,
                        new_direction.2 + (Snake.direction snake).2) <> (0, 0))
            then Snake.set_next_direction (Some new_direction) snake
            else snake
        | None => snake
        end in
      let speed :=
        match key with
        | K_PLUS | K_EQUALS => Z.min (speed + 1) MAX_SPEED
        | K_MINUS => Z.max (speed - 1) MIN_SPEED
        | _ => speed
        end in
      (snake, speed)
  | _ => (snake, speed)
  end.

(** Returns the snake as mutated and the new speed. *)
Fixpoint handle_keys (snake : Snake.t) (speed : Z) (events : list Event)
  : M (Snake.t * Z) :=
  match events with
  | [] => mret (snake, speed)
  | event :: rest =>
      if is_quit event then raise SystemExit
      else let '(snake, speed) := handle_event snake speed event in
           handle_keys snake speed rest
  end.

(** ** main *)

(** The local variables of [main]. *)
Record Locals : Type := mkLocals {
  snake : Snake.t;
  apple : Apple.t;
  speed : Z;
  record_length : Z
}.

(** Lines before the loop. *)
Definition main_setup : M Locals :=
  snake ← Snake.init;
  apple ← Apple.init (Some (Snake.positions snake));
  mret (mkLocals snake apple INITIAL_SPEED 1).

(** [handle_keys], [update_direction], [move]. *)
Definition tick_move (events : list Event) (st : Locals) : M Locals :=
  '(snake, speed) ← handle_keys (snake st) (speed st) events;
  let snake := Snake.update_direction snake in
  snake ← Snake.move snake;
  mret (mkLocals snake (apple st) speed (record_length st)).

(** [if snake.get_head_position() == apple.position: ...] *)
Definition tick_eat (st : Locals) : M Locals :=
  head ← Snake.get_head_position (snake st);
  if decide (head = Apple.position (apple st)) then
    let snake := Snake.set_length (Snake.length (snake st) + 1) (snake st) in
    apple ← Apple.randomize_position (apple st);
    let record_length :=
      if Snake.length snake >? record_length st
      then Snake.length snake else record_length st in
    mret (mkLocals snake apple (speed st) record_length)
  else mret st.

(** The test [snake.get_head_position() in snake.positions[1:]]. *)
Definition collides_with_self (snake : Snake.t) : M bool :=
  head ← Snake.get_head_position snake;
  ps ← load (Snake.positions snake);
  mret (bool_decide (head ∈ drop 1 ps)).

(** [if snake.get_head_position() in snake.positions[1:]: ...] *)
Definition tick_collide (st : Locals) : M Locals :=
  hit ← collides_with_self (snake st);
  if (hit : bool) then
    snake ← Snake.reset (snake st);
    apple ← Apple.randomize_position (apple st);
    mret (mkLocals snake apple (speed st) (record_length st))
  else mret st.

(** What one pass draws: the snake, then the apple. *)
Definition tick_draw (st : Locals) : M (list DrawCmd) :=
  cmds ← Snake.draw (snake st);
  mret (cmds ++ Apple.draw (apple st)).

(** One pass through the body of [while True]. *)
Definition tick (events : list Event) (st : Locals) : M Locals :=
  st ← tick_move events st;
  st ← tick_eat st;
  st ← tick_collide st;
  tick_draw st;;
  mret st.

(** The loop, for as many passes as there are event queues in [inputs]. *)
Fixpoint main_loop (inputs : list (list Event)) (st : Locals) : M Locals :=
  match inputs with
  | [] => mret st
  | events :: rest => st ← tick events st; main_loop rest st
  end.

Definition main (inputs : list (list Event)) : M Locals :=
  st ← main_setup;
  main_loop inputs st.

(** * Vocabulary of the statements *)

(** The body of a snake: the contents of its list object. *)
Definition body (self : Snake.t) (m : Mem) : option (list POINTER) :=
  heap m !! Snake.positions self.

(** The direction a [move] travels in: the pending one when there is one. *)
Definition heading (self : Snake.t) : POINTER :=
  default (Snake.direction self) (Snake.next_direction self).

(** The expression bound to [new_head] in [move]. *)
Definition wrapped (p d : POINTER) : POINTER :=
  ((p.1 + d.1 * GRID_SIZE + SCREEN_WIDTH) mod SCREEN_WIDTH,
   (p.2 + d.2 * GRID_SIZE + SCREEN_HEIGHT) mod SCREEN_HEIGHT).

Definition directions : list POINTER := [UP; DOWN; LEFT; RIGHT].

(** A cell of the grid, in pixels. *)
Definition on_grid (p : POINTER) : Prop :=
  (0 <= p.1 < SCREEN_WIDTH /\ p.1 mod GRID_SIZE = 0) /\
  (0 <= p.2 < SCREEN_HEIGHT /\ p.2 mod GRID_SIZE = 0).

Definition opposite (d : POINTER) : POINTER := (- d.1, - d.2).

(** The directions asked for by a queue of events, oldest first. *)
Definition requests (events : list Event) : list POINTER :=
  omap (fun e => match e with
                 | KEYDOWN key => direction_keys key
                 | _ => None
                 end) events.

(** The requests that pass the test against the committed direction [d]. *)
Definition accepted (d : POINTER) (rs : list POINTER) : list POINTER :=
  filter (fun r => r <> opposite d) rs.

(** [n] calls of [move] in a row. *)
Fixpoint moves (n : nat) (self : Snake.t) : M Snake.t :=
  match n with
  | O => mret self
  | S n' => self ← Snake.move self; moves n' self
  end.

(** The head before and after each of [n] calls of [move]. *)
Fixpoint heads (n : nat) (self : Snake.t) (m : Mem) : list POINTER :=
  match Snake.get_head_position self m with
  | Ok (p, _) =>
      p :: match n with
           | O => []
           | S n' => match Snake.move self m with
                     | Ok (self', m') => heads n' self' m'
                     | Halt _ => []
                     end
           end
  | Halt _ => []
  end.

(** How often the x coordinate falls from one head to the next: the number
    of times a snake travelling right came back in at the left edge. *)
Fixpoint wraps (ps : list POINTER) : nat :=
  match ps with
  | p :: (q :: _) as rest => (if q.1 <? p.1 then S (wraps rest) else wraps rest)
  | _ => 0%nat
  end.

(** The values [snake.length] takes during the loop: after the move, after
    the apple test and after the collision test of each pass. *)
Fixpoint loop_lengths (inputs : list (list Event)) (st : Locals) (m : Mem)
  : list Z :=
  match inputs with
  | [] => []
  | events :: rest =>
      match tick_move events st m with
      | Ok (st1, m1) =>
          Snake.length (snake st1) ::
          match tick_eat st1 m1 with
          | Ok (st2, m2) =>
              Snake.length (snake st2) ::
              match tick_collide st2 m2 with
              | Ok (st3, m3) =>
                  Snake.length (snake st3) :: loop_lengths rest st3 m3
              | Halt _ => []
              end
          | Halt _ => []
          end
      | Halt _ => []
      end
  end.

(** The same from the start of [main], the length at construction first. *)
Definition main_lengths (inputs : list (list Event)) (m : Mem) : list Z :=
  match main_setup m with
  | Ok (st, m') => Snake.length (snake st) :: loop_lengths inputs st m'
  | Halt _ => []
  end.

(** The states of a snake the program can produce: construction, then
    [move], the increment of [length] on eating, [reset], the writes of
    [handle_keys] and [update_direction]; draws by others may shorten the
    tape in between. *)
Inductive reachable : Snake.t -> Mem -> Prop :=
| reach_init m self m' :
    Snake.init m = Ok (self, m') -> reachable self m'
| reach_move self m self' m' :
    reachable self m -> Snake.move self m = Ok (self', m') -> reachable self' m'
| reach_grow self m :
    reachable self m ->
    reachable (Snake.set_length (Snake.length self + 1) self) m
| reach_reset self m self' m' :
    reachable self m -> Snake.reset self m = Ok (self', m') -> reachable self' m'
| reach_event self m speed event :
    reachable self m -> reachable (handle_event self speed event).1 m
| reach_update_direction self m :
    reachable self m -> reachable (Snake.update_direction self) m
| reach_draw self m t :
    reachable self m -> reachable self (mkMem (heap m) t).

(** A run that ends in a self-collision: the snake starts heading right,
    eats four apples placed straight ahead, then turns up, left and down
    into its own body.  [tight_loop_tape] lists the draws: the direction at
    construction, the five apples, and on the reset the new direction and the
    apple. *)
Definition tight_loop_inputs : list (list Event) :=
  [[]; []; []; []; [KEYDOWN K_UP]; [KEYDOWN K_LEFT]; [KEYDOWN K_DOWN]].

Definition tight_loop_tape : list Z :=
  [3; 17; 12; 18; 12; 19; 12; 20; 12; 0; 0; 3; 16; 12].

(** The events [handle_keys] reacts to at all: quit events and the eight
    keys it names. *)
Definition significant (event : Event) : bool :=
  match event with
  | OTHER_EVENT | KEYDOWN K_OTHER => false
  | _ => true
  end.

(** The key presses that ask for a change of speed. *)
Definition speed_key (event : Event) : bool :=
  match event with
  | KEYDOWN K_PLUS | KEYDOWN K_EQUALS | KEYDOWN K_MINUS => true
  | _ => false
  end.

(** The cell [randomize_position] builds from two raw draws. *)
Definition drawn_cell (r1 r2 : Z) : POINTER :=
  ((0 + r1 mod (GRID_WIDTH - 1 - 0 + 1)) * GRID_SIZE,
   (0 + r2 mod (GRID_HEIGHT - 1 - 0 + 1)) * GRID_SIZE).

(** Every cell of the board, column by column. *)
Definition all_cells : list POINTER :=
  col ← seqZ 0 GRID_WIDTH;
  row ← seqZ 0 GRID_HEIGHT;
  [(col * GRID_SIZE, row * GRID_SIZE)].

(** Within the board, in pixels (not necessarily on a cell boundary). *)
Definition on_board (p : POINTER) : Prop :=
  0 <= p.1 < SCREEN_WIDTH /\ 0 <= p.2 < SCREEN_HEIGHT.

(** Where the head is after [n] steps of [d] from [p], with wrap-around. *)
Definition advanced (n : nat) (p d : POINTER) : POINTER :=
  ((p.1 + Z.of_nat n * (d.1 * GRID_SIZE)) mod SCREEN_WIDTH,
   (p.2 + Z.of_nat n * (d.2 * GRID_SIZE)) mod SCREEN_HEIGHT).

(** Consecutive cells of a body are one step apart, wrap-around included. *)
Definition linked (ps : list POINTER) : Prop :=
  forall (i : nat) (a b : POINTER),
    ps !! i = Some a -> ps !! S i = Some b ->
    exists d, d ∈ directions /\ a = wrapped b d.

(** The head is one step of [d] away from the cell behind it. *)
Definition head_follows (d : POINTER) (ps : list POINTER) : Prop :=
  forall a b : POINTER,
    ps !! 0%nat = Some a -> ps !! 1%nat = Some b -> a = wrapped b d.

(** The colour of a cell on the chessboard colouring of the grid. *)
Definition parity (p : POINTER) : Z :=
  (p.1 / GRID_SIZE + p.2 / GRID_SIZE) mod 2.

(** What holds of the locals of [main] between two passes of the loop. *)
Definition main_inv (st : Locals) (m : Mem) : Prop :=
  (exists ps,
      body (snake st) m = Some ps /\
      ps <> [] /\
      NoDup ps /\
      Forall on_grid ps /\
      linked ps /\
      head_follows (Snake.direction (snake st)) ps /\
      (Z.of_nat (List.length ps) = Snake.length (snake st) \/
       Z.of_nat (List.length ps) + 1 = Snake.length (snake st)) /\
      (Apple.occupied_positions (apple st) = Snake.positions (snake st) ->
       Apple.position (apple st) ∉ ps)) /\
  Snake.next_direction (snake st) = None /\
  Snake.direction (snake st) ∈ directions /\
  on_grid (Apple.position (apple st)) /\
  is_Some (heap m !! Apple.occupied_positions (apple st)) /\
  MIN_SPEED <= speed st <= MAX_SPEED /\
  1 <= Snake.length (snake st) <= record_length st.

(** What holds in the middle of a pass, after [move]: [d] is the direction
    the snake had on the pass before, [grown] the number of cells the body is
    short of [length]. *)
Definition mid_inv (d : POINTER) (grown : Z) (st : Locals) (m : Mem) : Prop :=
  (exists a0 rest,
      body (snake st) m = Some (a0 :: rest) /\
      NoDup rest /\
      Forall on_grid (a0 :: rest) /\
      linked (a0 :: rest) /\
      head_follows (Snake.direction (snake st)) (a0 :: rest) /\
      head_follows d rest /\
      Z.of_nat (List.length (a0 :: rest)) + grown = Snake.length (snake st) /\
      (Apple.occupied_positions (apple st) = Snake.positions (snake st) ->
       Apple.position (apple st) ∉ rest)) /\
  d ∈ directions /\
  Snake.direction (snake st) ∈ directions /\
  Snake.direction (snake st) <> opposite d /\
  Snake.next_direction (snake st) = None /\
  on_grid (Apple.position (apple st)) /\
  is_Some (heap m !! Apple.occupied_positions (apple st)) /\
  MIN_SPEED <= speed st <= MAX_SPEED /\
  1 <= Snake.length (snake st) <= record_length st.

(** * Verification *)

(** ** Running the monad *)

Lemma bind_run {A B} (c : M A) (k : A -> M B) (m : Mem) :
  (c ≫= k) m = match c m with
               | Ok (a, m') => k a m'
               | Halt h => Halt h
               end.
Proof. reflexivity. Qed.

Lemma ret_run {A} (a : A) (m : Mem) : (mret a : M A) m = Ok (a, m).
Proof. reflexivity. Qed.

Lemma bind_Ok {A B} (c : M A) (k : A -> M B) (m : Mem) (r : B * Mem) :
  (c ≫= k) m = Ok r <-> exists a m1, c m = Ok (a, m1) /\ k a m1 = Ok r.
Proof.
  rewrite bind_run. split.
  - destruct (c m) as [[a m1]|h]; [eauto | discriminate].
  - intros (a & m1 & -> & Hk). exact Hk.
Qed.

Lemma load_run (r : loc) (m : Mem) (l : list POINTER) :
  heap m !! r = Some l -> load r m = Ok (l, m).
Proof. intros H. unfold load. now rewrite H. Qed.

Lemma load_Ok (r : loc) (m m' : Mem) (l : list POINTER) :
  load r m = Ok (l, m') -> heap m !! r = Some l /\ m' = m.
Proof.
  unfold load. destruct (heap m !! r); [|discriminate].
  intros [= -> ->]. auto.
Qed.

Lemma get_head_position_run (self : Snake.t) (m : Mem) h t :
  body self m = Some (h :: t) -> Snake.get_head_position self m = Ok (h, m).
Proof.
  intros H. unfold Snake.get_head_position.
  rewrite bind_run, (load_run _ _ _ H). reflexivity.
Qed.

Lemma get_head_position_Ok (self : Snake.t) (m m' : Mem) (p : POINTER) :
  Snake.get_head_position self m = Ok (p, m') ->
  exists t, body self m = Some (p :: t) /\ m' = m.
Proof.
  unfold Snake.get_head_position. rewrite bind_Ok.
  intros (ps & m1 & Hl & Hk). apply load_Ok in Hl as [Hl ->].
  destruct ps as [|h t]; simpl in Hk; [discriminate|].
  injection Hk as -> ->. eauto.
Qed.

Lemma lookup_store_same (r : loc) (l l' : list POINTER) (hp : list (list POINTER)) :
  hp !! r = Some l -> <[r := l']> hp !! r = Some l'.
Proof.
  intros H. apply list_lookup_insert_eq. eapply lookup_lt_Some, H.
Qed.

Lemma list_pop_cons {A} (x : A) (l : list A) :
  list_pop (x :: l) = Some (default x (last l), removelast (x :: l)).
Proof.
  unfold list_pop. rewrite last_cons. now destruct (last l).
Qed.

(** [move], run on a snake whose body is [h :: t]. *)
Lemma move_run (self : Snake.t) (m : Mem) (h : POINTER) (t : list POINTER) :
  body self m = Some (h :: t) ->
  let self1 := match Snake.next_direction self with
               | Some d => Snake.set_direction d self
               | None => self
               end in
  let new_head := wrapped h (heading self) in
  Snake.move self m =
    if Z.of_nat (List.length (new_head :: h :: t)) >? Snake.length self
    then Ok (Snake.set_last (Some (default h (last t))) self1,
             mkMem (<[Snake.positions self := new_head :: removelast (h :: t)]> (heap m))
                   (tape m))
    else Ok (self1,
             mkMem (<[Snake.positions self := new_head :: h :: t]> (heap m))
                   (tape m)).
Proof.
  intros Hb self1 new_head.
  assert (Hpos : Snake.positions self1 = Snake.positions self)
    by (subst self1; now destruct (Snake.next_direction self)).
  assert (Hlen : Snake.length self1 = Snake.length self)
    by (subst self1; now destruct (Snake.next_direction self)).
  assert (Hdir : Snake.direction self1 = heading self)
    by (subst self1; unfold heading; now destruct (Snake.next_direction self)).
  assert (Hb1 : body self1 m = Some (h :: t)) by (unfold body; now rewrite Hpos).
  unfold Snake.move. fold self1.
  rewrite bind_run, (get_head_position_run _ _ _ _ Hb1).
  destruct h as [x y]. rewrite Hdir.
  destruct (heading self) as [dx dy] eqn:Hh.
  change ((x + dx * GRID_SIZE + SCREEN_WIDTH) mod SCREEN_WIDTH,
          (y + dy * GRID_SIZE + SCREEN_HEIGHT) mod SCREEN_HEIGHT)
    with (wrapped (x, y) (dx, dy)).
  subst new_head.
  set (nh := wrapped (x, y) (dx, dy)).
  rewrite bind_run, (load_run _ _ _ Hb1).
  rewrite bind_run. unfold store at 1. cbn [heap tape].
  rewrite bind_run.
  unfold body in Hb1.
  rewrite (load_run _ _ (nh :: (x, y) :: t))
    by (cbn [heap]; eapply lookup_store_same, Hb1).
  rewrite Hlen, Hpos. unfold POINTER in *.
  destruct (Z.of_nat (List.length (nh :: (x, y) :: t)) >? Snake.length self); [|reflexivity].
  change (list_pop (nh :: (x, y) :: t))
    with (list_pop (nh :: ((x, y) :: t))).
  rewrite list_pop_cons. rewrite last_cons.
  rewrite bind_run. unfold store. cbn [heap tape].
  rewrite list_insert_insert_eq.
  replace (default nh (match last t with Some y0 => Some y0 | None => Some (x, y) end))
    with (default (x, y) (last t)) by now destruct (last t).
  reflexivity.
Qed.

(** ** The random source *)

Lemma choice_directions_run (m : Mem) :
  choice directions m =
    match tape m with
    | [] => Halt TapeExhausted
    | r :: t => Ok (default UP (directions !! Z.to_nat (r mod 4)),
                    mkMem (heap m) t)
    end.
Proof.
  unfold choice, directions. rewrite bind_run. unfold draw_raw.
  destruct (tape m) as [|r t]; [reflexivity|].
  cbn [List.length]. change (Z.of_nat 4) with 4.
  assert (Hr : (Z.to_nat (r mod 4) < 4)%nat)
    by (pose proof (Z.mod_pos_bound r 4); lia).
  destruct (lookup_lt_is_Some_2 [UP; DOWN; LEFT; RIGHT] _ Hr) as [d Hd].
  now rewrite Hd.
Qed.

Lemma choice_directions_elem (r : Z) :
  default UP (directions !! Z.to_nat (r mod 4)) ∈ directions.
Proof.
  assert (Hr : (Z.to_nat (r mod 4) < 4)%nat)
    by (pose proof (Z.mod_pos_bound r 4); lia).
  destruct (lookup_lt_is_Some_2 directions _ Hr) as [d Hd].
  rewrite Hd. simpl. eapply list_elem_of_lookup_2, Hd.
Qed.

Lemma randint_Ok (a b v : Z) (m m' : Mem) :
  randint a b m = Ok (v, m') ->
  a <= v <= b /\ heap m' = heap m /\ exists r, tape m = r :: tape m'.
Proof.
  unfold randint. destruct (Z.ltb_spec b a) as [Hlt|Hle]; [discriminate|].
  rewrite bind_run. unfold draw_raw.
  destruct (tape m) as [|r t] eqn:Ht; [discriminate|].
  intros [= <- <-]. cbn [heap tape].
  pose proof (Z.mod_pos_bound r (b - a + 1)).
  repeat split; try lia. eauto.
Qed.

(** ** Apple.randomize_position *)

Lemma randomize_rounds_Ok (fuel : nat) (a a' : Apple.t) (m m' : Mem) :
  Apple.randomize_rounds fuel a m = Ok (a', m') ->
  heap m' = heap m /\
  exists occupied,
    heap m !! Apple.occupied_positions a = Some occupied /\
    a' = Apple.set_position (Apple.position a') a /\
    (Apple.position a' ∉ occupied) /\
    on_grid (Apple.position a').
Proof.
  revert m. induction fuel as [|fuel IH]; intros m; [discriminate|].
  cbn [Apple.randomize_rounds].
  rewrite bind_Ok. intros (col & m1 & Hc & H).
  rewrite bind_Ok in H. destruct H as (row & m2 & Hr & H).
  rewrite bind_Ok in H. destruct H as (occ & m3 & Hl & H).
  apply randint_Ok in Hc as (Hcb & Hh1 & _).
  apply randint_Ok in Hr as (Hrb & Hh2 & _).
  apply load_Ok in Hl as [Hl ->].
  destruct (decide ((col * GRID_SIZE, row * GRID_SIZE) ∈ occ)) as [Hin|Hout].
  - apply IH in H as (Hh & occ' & Ho & Hrest).
    split; [congruence|]. exists occ'. split; [|exact Hrest].
    rewrite <- Hh1, <- Hh2. exact Ho.
  - injection H as <- <-. split; [congruence|].
    exists occ. rewrite <- Hh1, <- Hh2. split; [exact Hl|].
    split; [reflexivity|]. split; [exact Hout|].
    unfold on_grid. cbn [Apple.position Apple.set_position fst snd].
    unfold GRID_WIDTH, GRID_HEIGHT, SCREEN_WIDTH, SCREEN_HEIGHT, GRID_SIZE in *.
    change (640 / 20) with 32 in Hcb. change (480 / 20) with 24 in Hrb.
    rewrite !Z.mod_mul by lia. lia.
Qed.

Lemma randomize_position_Ok (a a' : Apple.t) (m m' : Mem) :
  Apple.randomize_position a m = Ok (a', m') ->
  heap m' = heap m /\
  exists occupied,
    heap m !! Apple.occupied_positions a = Some occupied /\
    a' = Apple.set_position (Apple.position a') a /\
    (Apple.position a' ∉ occupied) /\
    on_grid (Apple.position a').
Proof. apply randomize_rounds_Ok. Qed.

(** ** Snake.init and Snake.reset on a tape *)

Lemma reset_run (self : Snake.t) (m : Mem) :
  Snake.reset self m =
    match tape m with
    | [] => Halt TapeExhausted
    | r :: t =>
        Ok (Snake.mk (Snake.position self) (Snake.body_color self) 1
                     (List.length (heap m))
                     (default UP (directions !! Z.to_nat (r mod 4)))
                     None (Snake.last self),
            mkMem (heap m ++ [[SCREEN_CENTER]]) t)
    end.
Proof.
  unfold Snake.reset. rewrite bind_run. unfold alloc.
  rewrite bind_run. fold directions. rewrite choice_directions_run.
  cbn [heap tape]. now destruct (tape m).
Qed.

Lemma init_run (m : Mem) :
  Snake.init m =
    match tape m with
    | [] => Halt TapeExhausted
    | r :: t =>
        Ok (Snake.mk SCREEN_CENTER SNAKE_COLOR 1 (List.length (heap m))
                     (default UP (directions !! Z.to_nat (r mod 4)))
                     None None,
            mkMem (heap m ++ [[SCREEN_CENTER]]) t)
    end.
Proof.
  unfold Snake.init. rewrite bind_run. unfold alloc.
  rewrite bind_run. fold directions. rewrite choice_directions_run.
  cbn [heap tape]. now destruct (tape m).
Qed.

Lemma lookup_fresh (hp : list (list POINTER)) (l : list POINTER) :
  (hp ++ [l]) !! List.length hp = Some l.
Proof. apply list_lookup_middle. reflexivity. Qed.

(** ** handle_keys *)

Lemma sum_nonzero_iff_not_opposite (r d : POINTER) :
  (r.1 + d.1, r.2 + d.2) <> (0, 0) <-> r <> opposite d.
Proof.
  destruct r as [r1 r2], d as [d1 d2]. unfold opposite. cbn [fst snd].
  split; intros H E; apply H; injection E as E1 E2; f_equal; lia.
Qed.

Lemma set_next_direction_id (snake : Snake.t) :
  Snake.set_next_direction (Snake.next_direction snake) snake = snake.
Proof. now destruct snake. Qed.

Lemma handle_event_snake (snake : Snake.t) (speed : Z) (event : Event) :
  (handle_event snake speed event).1 =
    Snake.set_next_direction
      (match last (accepted (Snake.direction snake) (requests [event])) with
       | Some r => Some r
       | None => Snake.next_direction snake
       end) snake.
Proof.
  destruct event as [|key|]; try (symmetry; apply set_next_direction_id).
  cbn [handle_event fst]. unfold requests. cbn [omap list_omap].
  destruct (direction_keys key) as [r|]; cbn [fst omap list_omap];
    [|symmetry; apply set_next_direction_id].
  unfold accepted. rewrite filter_cons, filter_nil.
  destruct (decide (_ <> (0, 0))) as [Hs|Hs];
    destruct (decide (r <> opposite (Snake.direction snake))) as [Ho|Ho];
    try reflexivity; try (symmetry; apply set_next_direction_id);
    exfalso; rewrite sum_nonzero_iff_not_opposite in Hs; tauto.
Qed.

Lemma requests_cons (event : Event) (rest : list Event) :
  requests (event :: rest) = requests [event] ++ requests rest.
Proof.
  unfold requests. cbn [omap list_omap].
  destruct event as [|key|]; try reflexivity.
  now destruct (direction_keys key).
Qed.

(** What a drain of the queue does to the snake: nothing but
    [next_direction] changes, and that holds the last accepted request. *)
Lemma handle_keys_Ok (events : list Event) (snake snake' : Snake.t)
      (speed speed' : Z) (m m' : Mem) :
  handle_keys snake speed events m = Ok ((snake', speed'), m') ->
  m' = m /\
  snake' = Snake.set_next_direction
             (match last (accepted (Snake.direction snake) (requests events)) with
              | Some r => Some r
              | None => Snake.next_direction snake
              end) snake.
Proof.
  revert snake speed. induction events as [|event rest IH]; intros snake speed.
  - cbn [handle_keys]. rewrite ret_run. intros [= <- <- <-].
    split; [reflexivity|]. symmetry. apply set_next_direction_id.
  - cbn [handle_keys]. destruct (is_quit event); [discriminate|].
    pose proof (handle_event_snake snake speed event) as He.
    destruct (handle_event snake speed event) as [snake1 speed1].
    cbn [fst] in He. intros H. apply IH in H as [-> ->].
    split; [reflexivity|].
    rewrite requests_cons. unfold accepted in *. rewrite filter_app, last_app.
    subst snake1. cbn [Snake.direction Snake.next_direction Snake.set_next_direction].
    now destruct (last (filter _ (requests rest))).
Qed.

(** A drain either meets a quit event or completes. *)
Lemma handle_keys_total (events : list Event) (snake : Snake.t) (speed : Z) (m : Mem) :
  existsb is_quit events = false ->
  exists snake' speed', handle_keys snake speed events m = Ok ((snake', speed'), m).
Proof.
  revert snake speed. induction events as [|event rest IH]; intros snake speed.
  - intros _. eexists _, _. reflexivity.
  - cbn [existsb handle_keys]. intros H. apply orb_false_iff in H as [-> H].
    destruct (handle_event snake speed event) as [snake1 speed1].
    apply (IH _ _ H).
Qed.

(** ** Snake.move *)

(** The effect of [move] on the snake and on its list object. *)
Lemma move_effect
    (self : Snake.t) (m : Mem) (h : POINTER) (t : list POINTER) :
  body self m = Some (h :: t) ->
  let new_head := wrapped h (heading self) in
  exists self' m',
    Snake.move self m = Ok (self', m') /\
    Snake.length self' = Snake.length self /\
    Snake.positions self' = Snake.positions self /\
    if decide (Z.of_nat (List.length (new_head :: h :: t)) > Snake.length self)
    then body self' m' = Some (new_head :: removelast (h :: t)) /\
         Snake.last self' = last (h :: t)
    else body self' m' = Some (new_head :: h :: t) /\
         Snake.last self' = Snake.last self.
Proof.
  intros Hb new_head. rewrite (move_run _ _ _ _ Hb). fold new_head.
  assert (Hf : forall l, body self (mkMem (<[Snake.positions self := l]> (heap m)) (tape m)) = Some l).
  { intros l. unfold body in *. cbn [heap]. eapply lookup_store_same, Hb. }
  destruct (Z.gtb_spec (Z.of_nat (List.length (new_head :: h :: t))) (Snake.length self))
    as [Hgt|Hle].
  - eexists _, _. split; [reflexivity|].
    destruct (decide _) as [_|Hn]; [|lia].
    unfold body in *.
    destruct (Snake.next_direction self);
      cbn [Snake.length Snake.positions Snake.last Snake.set_last Snake.set_direction];
      rewrite last_cons; repeat split; try apply Hf; now destruct (last t).
  - eexists _, _. split; [reflexivity|].
    destruct (decide _) as [Hn|_]; [lia|].
    unfold body in *.
    destruct (Snake.next_direction self);
      cbn [Snake.length Snake.positions Snake.last Snake.set_direction];
      repeat split; apply Hf.
Qed.

(** C3 (as amended).  On a snake with a non-empty body [h :: t], [move]
    returns; it puts the wrapped new head in front of the body, inside the
    same list object; when the body is then longer than [length] it pops the
    last cell and records it in [last]; otherwise it leaves [last] as it was;
    [length] is never changed. *)
Theorem move_prepends_and_reconciles
    (self : Snake.t) (m : Mem) (h : POINTER) (t : list POINTER) :
  body self m = Some (h :: t) ->
  let new_head := wrapped h (heading self) in
  exists self' m',
    Snake.move self m = Ok (self', m') /\
    Snake.length self' = Snake.length self /\
    Snake.positions self' = Snake.positions self /\
    if decide (Z.of_nat (List.length (new_head :: h :: t)) > Snake.length self)
    then body self' m' = Some (new_head :: removelast (h :: t)) /\
         Snake.last self' = last (h :: t)
    else body self' m' = Some (new_head :: h :: t) /\
         Snake.last self' = Snake.last self.
Proof. exact (move_effect self m h t). Qed.

Lemma move_prepends_and_reconciles_witness :
  let self := Snake.mk SCREEN_CENTER SNAKE_COLOR 2 0%nat RIGHT None (Some (320, 240)) in
  let m := mkMem [[(360, 240); (340, 240)]] [] in
  exists self' m',
    Snake.move self m = Ok (self', m') /\
    Snake.length self' = 2 /\
    Snake.positions self' = 0%nat /\
    body self' m' = Some [(380, 240); (360, 240)] /\
    Snake.last self' = Some (340, 240).
Proof.
  intros self m.
  destruct (move_prepends_and_reconciles self m (360, 240) [(340, 240)] eq_refl)
    as (self' & m' & Hm & Hl & Hp & H).
  exists self', m'. repeat split; try assumption; apply H.
Defined.

(** C3, counterexample.  After the first pass of [main] in which the apple
    ahead of the snake is eaten, the snake has [length = 2], a one-cell body
    and [last = (320, 240)].  The next [move] finds the body no longer than
    [length], pops nothing, and [last] is still [(320, 240)], not [None]. *)
Lemma move_keeps_stale_last :
  exists st m self' m',
    main [[]] (mkMem [] [3; 17; 12; 18; 12]) = Ok (st, m) /\
    body (snake st) m = Some [(340, 240)] /\
    Snake.move (snake st) m = Ok (self', m') /\
    body self' m' = Some [(360, 240); (340, 240)] /\
    Z.of_nat (List.length [(360, 240); (340, 240)]) <= Snake.length (snake st) /\
    Snake.last self' = Some (320, 240) /\
    Snake.last self' <> None.
Proof.
  eexists _, _, _, _. split; [vm_compute; reflexivity|].
  split; [reflexivity|]. split; [vm_compute; reflexivity|].
  split; [reflexivity|]. split; [vm_compute; discriminate|].
  split; [reflexivity|]. discriminate.
Qed.

(** C7.  From a head cell on the grid, for every delta, [move] returns and
    the new head is on the grid: each pixel axis is in [0, extent) and a
    multiple of the cell size, so each cell axis is in [0, GRID_WIDTH) resp.
    [0, GRID_HEIGHT). *)
Theorem new_head_within_board
    (self : Snake.t) (m : Mem) (h : POINTER) (t : list POINTER) :
  body self m = Some (h :: t) ->
  on_grid h ->
  exists self' m' t',
    Snake.move self m = Ok (self', m') /\
    body self' m' = Some (wrapped h (heading self) :: t') /\
    on_grid (wrapped h (heading self)) /\
    0 <= (wrapped h (heading self)).1 / GRID_SIZE < GRID_WIDTH /\
    0 <= (wrapped h (heading self)).2 / GRID_SIZE < GRID_HEIGHT.
Proof.
  intros Hb [[Hx Hxm] [Hy Hym]].
  destruct (move_effect self m h t Hb) as (self' & m' & Hm & _ & _ & H).
  assert (Hg : on_grid (wrapped h (heading self))).
  { destruct h as [x y], (heading self) as [dx dy].
    unfold on_grid, wrapped, SCREEN_WIDTH, SCREEN_HEIGHT, GRID_SIZE in *.
    cbn [fst snd] in *.
    pose proof (Z.mod_pos_bound (x + dx * 20 + 640) 640).
    pose proof (Z.mod_pos_bound (y + dy * 20 + 480) 480).
    repeat split; try lia.
    - rewrite Z.mod_mod_divide by (now exists 32).
      rewrite <- Z.add_assoc, Z.add_mod, Hxm by lia.
      replace (dx * 20 + 640) with ((dx + 32) * 20) by lia.
      now rewrite Z.mod_mul by lia.
    - rewrite Z.mod_mod_divide by (now exists 24).
      rewrite <- Z.add_assoc, Z.add_mod, Hym by lia.
      replace (dy * 20 + 480) with ((dy + 24) * 20) by lia.
      now rewrite Z.mod_mul by lia. }
  exists self', m'.
  destruct (decide _) as [_|_]; destruct H as [H _];
    eexists; (split; [exact Hm|]); (split; [exact H|]); (split; [exact Hg|]);
    destruct Hg as [[Hgx _] [Hgy _]];
    unfold GRID_WIDTH, GRID_HEIGHT, SCREEN_WIDTH, SCREEN_HEIGHT, GRID_SIZE in *;
    change (640 / 20) with 32; change (480 / 20) with 24;
    split; split;
      try (apply Z.div_pos; lia); apply Z.div_lt_upper_bound; lia.
Qed.

Lemma new_head_within_board_witness :
  let self := Snake.mk SCREEN_CENTER SNAKE_COLOR 1 0%nat RIGHT None None in
  let m := mkMem [[(620, 240)]] [] in
  on_grid (620, 240) /\
  exists self' m' t',
    Snake.move self m = Ok (self', m') /\
    body self' m' = Some ((0, 240) :: t') /\
    on_grid (0, 240).
Proof.
  intros self m.
  assert (Hg : on_grid (620, 240)) by (vm_compute; intuition discriminate).
  split; [exact Hg|].
  destruct (new_head_within_board self m (620, 240) [] eq_refl Hg)
    as (self' & m' & t' & Hm & Hb & Hg' & _).
  exists self', m', t'. auto.
Defined.

(** ** Snake.reset *)

(** What [reset] establishes, on any snake, given one draw for [choice]. *)
Lemma reset_establishes (self : Snake.t) (m : Mem) (r : Z) (t : list Z) :
  tape m = r :: t ->
  exists self' m',
    Snake.reset self m = Ok (self', m') /\
    Snake.length self' = 1 /\
    body self' m' = Some [SCREEN_CENTER] /\
    Snake.direction self' ∈ directions /\
    Snake.next_direction self' = None /\
    Snake.last self' = Snake.last self /\
    Snake.positions self' = List.length (heap m) /\
    heap m' = heap m ++ [[SCREEN_CENTER]] /\
    tape m' = t.
Proof.
  intros Ht. rewrite reset_run, Ht. eexists _, _. split; [reflexivity|].
  cbn [Snake.length Snake.direction Snake.next_direction Snake.last
       Snake.positions heap tape].
  repeat split; try reflexivity.
  - unfold body. cbn [Snake.positions heap]. apply lookup_fresh.
  - apply choice_directions_elem.
Qed.

Lemma reset_Ok (self self' : Snake.t) (m m' : Mem) :
  Snake.reset self m = Ok (self', m') ->
  exists r, tape m = r :: tape m' /\
    Snake.length self' = 1 /\
    body self' m' = Some [SCREEN_CENTER] /\
    Snake.last self' = Snake.last self /\
    heap m' = heap m ++ [[SCREEN_CENTER]] /\
    Snake.positions self' = List.length (heap m).
Proof.
  rewrite reset_run. destruct (tape m) as [|r t] eqn:Ht; [discriminate|].
  destruct (reset_establishes self m r t Ht)
    as (s & m1 & Hr & Hl & Hb & _ & _ & Hla & Hp & Hh & Htp).
  rewrite reset_run, Ht in Hr. rewrite Hr. intros [= <- <-].
  exists r. rewrite Htp. auto 10.
Qed.

(** ** The self-collision test *)

Lemma collides_with_self_run (snake : Snake.t) (m : Mem) h t :
  body snake m = Some (h :: t) ->
  collides_with_self snake m = Ok (bool_decide (h ∈ t), m).
Proof.
  intros Hb. unfold collides_with_self.
  rewrite bind_run, (get_head_position_run _ _ _ _ Hb).
  rewrite bind_run, (load_run _ _ _ Hb). reflexivity.
Qed.

(** C5.  On a snake with a non-empty body the test returns, and it is true
    exactly when the cell at index 0 also sits at some index [i >= 1]; on the
    snake that [reset] returns it is false. *)
Theorem collides_with_self_iff (snake : Snake.t) (m : Mem) (ps : list POINTER) :
  body snake m = Some ps ->
  ps <> [] ->
  (exists hit,
      collides_with_self snake m = Ok (hit, m) /\
      (hit = true <-> exists i, (1 <= i)%nat /\ ps !! i = ps !! 0%nat)) /\
  (forall self' m',
      Snake.reset snake m = Ok (self', m') ->
      Snake.length self' = 1 /\
      collides_with_self self' m' = Ok (false, m')).
Proof.
  intros Hb Hne. split.
  - destruct ps as [|h t]; [congruence|].
    exists (bool_decide (h ∈ t)). split; [now apply collides_with_self_run|].
    rewrite bool_decide_eq_true, list_elem_of_lookup. cbn [lookup list_lookup].
    split.
    + intros [j Hj]. exists (S j). split; [lia|exact Hj].
    + intros (i & Hi & Hl). destruct i as [|j]; [lia|]. exists j. exact Hl.
  - intros self' m' Hr. apply reset_Ok in Hr as (r & _ & Hl & Hb' & _).
    split; [exact Hl|].
    rewrite (collides_with_self_run _ _ _ _ Hb'). reflexivity.
Qed.

Lemma collides_with_self_iff_witness :
  let snake := Snake.mk SCREEN_CENTER SNAKE_COLOR 5 0%nat DOWN None (Some (360, 240)) in
  let m := mkMem [[(380, 240); (380, 220); (400, 220); (400, 240); (380, 240)]] [3] in
  collides_with_self snake m = Ok (true, m) /\
  exists self' m',
    Snake.reset snake m = Ok (self', m') /\
    collides_with_self self' m' = Ok (false, m').
Proof.
  intros snake m.
  destruct (collides_with_self_iff snake m
              [(380, 240); (380, 220); (400, 220); (400, 240); (380, 240)]
              eq_refl ltac:(discriminate)) as [(hit & Hc & Hiff) Hreset].
  split.
  - rewrite Hc. f_equal. f_equal. apply Hiff. exists 4%nat. split; [lia|reflexivity].
  - destruct (reset_establishes snake m 3 [] eq_refl) as (self' & m' & Hr & _).
    exists self', m'. split; [exact Hr|]. apply (Hreset _ _ Hr).
Defined.

(** ** Direction requests *)

(** C6.  With [d] the committed direction, one of the four: a key press that
    asks for [r] leaves [direction] alone and sets [next_direction] to [r]
    unless [r] is the opposite of [d], in which case [next_direction] keeps
    its value; of the four directions exactly one, [-d], is refused, and
    [d] itself is not; and after a
    whole queue without a quit event, [direction] is still [d] and
    [next_direction] holds the last request that passed the test against
    [d], or its old value when none did. *)
Theorem direction_request_filter (snake : Snake.t) (speed : Z) :
  let d := Snake.direction snake in
  d ∈ directions ->
  (forall key r,
      direction_keys key = Some r ->
      let snake' := (handle_event snake speed (KEYDOWN key)).1 in
      Snake.direction snake' = d /\
      Snake.next_direction snake' =
        if decide (r = opposite d) then Snake.next_direction snake else Some r) /\
  (opposite d ∈ directions /\
   d <> opposite d /\
   List.length (accepted d directions) = 3%nat /\
   forall r, r ∈ directions -> (r ∈ accepted d directions <-> r <> opposite d)) /\
  (forall events m,
      existsb is_quit events = false ->
      exists snake' speed',
        handle_keys snake speed events m = Ok ((snake', speed'), m) /\
        Snake.direction snake' = d /\
        Snake.next_direction snake' =
          match last (accepted d (requests events)) with
          | Some r => Some r
          | None => Snake.next_direction snake
          end).
Proof.
  intros d Hd. split; [|split].
  - intros key r Hk snake'. subst snake'.
    rewrite handle_event_snake. unfold requests. cbn [omap list_omap].
    rewrite Hk. cbn [omap list_omap]. unfold accepted.
    rewrite filter_cons, filter_nil. fold d.
    cbn [Snake.direction Snake.next_direction Snake.set_next_direction].
    split; [reflexivity|].
    destruct (decide (r <> opposite d)) as [Hn|Hn];
      destruct (decide (r = opposite d)) as [He|He]; try reflexivity; tauto.
  - assert (Hcases : d = UP \/ d = DOWN \/ d = LEFT \/ d = RIGHT).
    { unfold directions in Hd. rewrite !elem_of_cons in Hd.
      destruct Hd as [H|[H|[H|[H|H]]]]; try (inversion H; fail); auto 6. }
    split; [|split; [|split]].
    + destruct Hcases as [E|[E|[E|E]]]; rewrite E; unfold opposite; cbn; repeat constructor.
    + destruct Hcases as [E|[E|[E|E]]]; rewrite E; discriminate.
    + destruct Hcases as [E|[E|[E|E]]]; rewrite E; reflexivity.
    + intros r Hr. unfold accepted. rewrite list_elem_of_filter. tauto.
  - intros events m Hq.
    destruct (handle_keys_total events snake speed m Hq) as (snake' & speed' & Hk).
    exists snake', speed'. split; [exact Hk|].
    apply handle_keys_Ok in Hk as [_ ->]. fold d.
    cbn [Snake.direction Snake.next_direction Snake.set_next_direction].
    auto.
Qed.

Lemma direction_request_filter_witness :
  let snake := Snake.mk SCREEN_CENTER SNAKE_COLOR 4 0%nat UP None None in
  UP ∈ directions /\
  Snake.next_direction (handle_event snake 10 (KEYDOWN K_DOWN)).1 = None /\
  Snake.next_direction (handle_event snake 10 (KEYDOWN K_LEFT)).1 = Some LEFT /\
  exists snake' speed',
    handle_keys snake 10 [KEYDOWN K_LEFT; KEYDOWN K_DOWN; KEYDOWN K_RIGHT]
                (mkMem [] []) = Ok ((snake', speed'), mkMem [] []) /\
    Snake.direction snake' = UP /\
    Snake.next_direction snake' = Some RIGHT.
Proof.
  intros snake.
  assert (Hd : Snake.direction snake ∈ directions) by apply list_elem_of_here.
  destruct (direction_request_filter snake 10 Hd) as (Hone & _ & Hall).
  split; [exact Hd|].
  split; [apply (Hone K_DOWN DOWN eq_refl)|].
  split; [apply (Hone K_LEFT LEFT eq_refl)|].
  apply (Hall [KEYDOWN K_LEFT; KEYDOWN K_DOWN; KEYDOWN K_RIGHT] (mkMem [] []) eq_refl).
Defined.

(** ** The passes of the loop *)

Lemma move_Ok_body (self : Snake.t) (m : Mem) (r : Snake.t * Mem) :
  Snake.move self m = Ok r -> exists h t, body self m = Some (h :: t).
Proof.
  unfold Snake.move. rewrite bind_Ok. intros (p & m1 & Hg & _).
  apply get_head_position_Ok in Hg as (t & Hb & _).
  exists p, t. unfold body in *.
  now destruct (Snake.next_direction self).
Qed.

Lemma tick_move_Ok (events : list Event) (st st1 : Locals) (m m1 : Mem) :
  tick_move events st m = Ok (st1, m1) ->
  exists h t new_head,
    body (snake st) m = Some (h :: t) /\
    apple st1 = apple st /\
    record_length st1 = record_length st /\
    Snake.length (snake st1) = Snake.length (snake st) /\
    Snake.positions (snake st1) = Snake.positions (snake st) /\
    tape m1 = tape m /\
    body (snake st1) m1 =
      Some (if decide (Z.of_nat (List.length (new_head :: h :: t)) > Snake.length (snake st))
            then new_head :: removelast (h :: t)
            else new_head :: h :: t).
Proof.
  unfold tick_move. rewrite bind_Ok. intros ([snake' speed'] & m0 & Hk & H).
  apply handle_keys_Ok in Hk as [-> ->].
  rewrite bind_Ok in H. destruct H as (snake1 & m1' & Hm & H).
  rewrite ret_run in H. injection H as <- <-.
  cbn [snake apple record_length].
  set (s0 := Snake.update_direction _) in *.
  assert (Hpos : Snake.positions s0 = Snake.positions (snake st))
    by (subst s0; unfold Snake.update_direction;
        now destruct (Snake.next_direction (Snake.set_next_direction _ _))).
  assert (Hlen : Snake.length s0 = Snake.length (snake st))
    by (subst s0; unfold Snake.update_direction;
        now destruct (Snake.next_direction (Snake.set_next_direction _ _))).
  destruct (move_Ok_body _ _ _ Hm) as (h & t & Hb).
  destruct (move_effect s0 m h t Hb)
    as (s' & m' & Hm' & Hl' & Hp' & H).
  rewrite Hm in Hm'. injection Hm' as <- <-.
  exists h, t, (wrapped h (heading s0)).
  rewrite Hlen in *. rewrite Hpos in *.
  split; [unfold body in *; now rewrite <- Hpos|].
  do 4 (split; [auto|]).
  split.
  - rewrite (move_run _ _ _ _ Hb) in Hm.
    destruct (Z.of_nat _ >? _); now injection Hm as _ <-.
  - destruct (decide _); apply H.
Qed.

Lemma max_of_test (n r : Z) : (if n >? r then n else r) = Z.max r n.
Proof. destruct (Z.gtb_spec n r); lia. Qed.

Lemma tick_eat_Ok (st st2 : Locals) (m m2 : Mem) :
  tick_eat st m = Ok (st2, m2) ->
  exists h t,
    body (snake st) m = Some (h :: t) /\
    heap m2 = heap m /\
    speed st2 = speed st /\
    if decide (h = Apple.position (apple st))
    then snake st2 = Snake.set_length (Snake.length (snake st) + 1) (snake st) /\
         record_length st2 = Z.max (record_length st) (Snake.length (snake st) + 1) /\
         Apple.randomize_position (apple st) m = Ok (apple st2, m2)
    else st2 = st /\ m2 = m.
Proof.
  unfold tick_eat. rewrite bind_Ok. intros (h & m0 & Hg & H).
  apply get_head_position_Ok in Hg as (t & Hb & ->).
  exists h, t. split; [exact Hb|].
  destruct (decide (h = Apple.position (apple st))) as [He|Hne].
  - rewrite bind_Ok in H. destruct H as (a' & m' & Hr & H).
    rewrite ret_run in H. injection H as <- <-.
    cbn [snake apple speed record_length Snake.length Snake.set_length].
    rewrite max_of_test.
    pose proof (randomize_position_Ok _ _ _ _ Hr) as [Hh _]. auto.
  - rewrite ret_run in H. injection H as <- <-. auto.
Qed.

Lemma tick_collide_Ok (st st3 : Locals) (m m3 : Mem) :
  tick_collide st m = Ok (st3, m3) ->
  exists h t,
    body (snake st) m = Some (h :: t) /\
    collides_with_self (snake st) m = Ok (bool_decide (h ∈ t), m) /\
    record_length st3 = record_length st /\
    speed st3 = speed st /\
    if decide (h ∈ t)
    then exists m',
        Snake.reset (snake st) m = Ok (snake st3, m') /\
        Apple.randomize_position (apple st) m' = Ok (apple st3, m3)
    else st3 = st /\ m3 = m.
Proof.
  unfold tick_collide. rewrite bind_Ok. intros (hit & m0 & Hc & H).
  assert (Hc' := Hc). unfold collides_with_self in Hc'.
  rewrite bind_Ok in Hc'. destruct Hc' as (h & m' & Hg & _).
  apply get_head_position_Ok in Hg as (t & Hb & _).
  rewrite (collides_with_self_run _ _ _ _ Hb) in Hc. injection Hc as <- <-.
  exists h, t. split; [exact Hb|].
  split; [now apply collides_with_self_run|].
  destruct (decide (h ∈ t)) as [Hin|Hout].
  - rewrite bool_decide_eq_true_2 in H by exact Hin.
    rewrite bind_Ok in H. destruct H as (s' & m1 & Hr & H).
    rewrite bind_Ok in H. destruct H as (a' & m2 & Ha & H).
    rewrite ret_run in H. injection H as <- <-.
    cbn [snake apple speed record_length]. eauto.
  - rewrite bool_decide_eq_false_2 in H by exact Hout.
    rewrite ret_run in H. injection H as <- <-. auto.
Qed.

Lemma draw_Ok (self : Snake.t) (m m' : Mem) (cmds : list DrawCmd) :
  Snake.draw self m = Ok (cmds, m') -> m' = m.
Proof.
  unfold Snake.draw. rewrite bind_Ok. intros (ps & m1 & Hl & H).
  apply load_Ok in Hl as [_ ->].
  destruct (ps !! 0%nat); [|discriminate].
  rewrite ret_run in H. now injection H.
Qed.

Lemma draw_run (self : Snake.t) (m : Mem) h t :
  body self m = Some (h :: t) -> exists cmds, Snake.draw self m = Ok (cmds, m).
Proof.
  intros Hb. unfold Snake.draw. rewrite bind_run, (load_run _ _ _ Hb).
  cbn [lookup list_lookup]. eexists. reflexivity.
Qed.

Lemma tick_Ok (events : list Event) (st st' : Locals) (m m' : Mem) :
  tick events st m = Ok (st', m') ->
  exists st1 m1 st2 m2,
    tick_move events st m = Ok (st1, m1) /\
    tick_eat st1 m1 = Ok (st2, m2) /\
    tick_collide st2 m2 = Ok (st', m').
Proof.
  unfold tick. rewrite bind_Ok. intros (st1 & m1 & H1 & H).
  rewrite bind_Ok in H. destruct H as (st2 & m2 & H2 & H).
  rewrite bind_Ok in H. destruct H as (st3 & m3 & H3 & H).
  rewrite bind_Ok in H. destruct H as (cmds & m4 & H4 & H).
  rewrite ret_run in H. injection H as <- <-.
  unfold tick_draw in H4. rewrite bind_Ok in H4.
  destruct H4 as (c & m5 & Hd & H4). rewrite ret_run in H4.
  injection H4 as _ <-. apply draw_Ok in Hd as ->.
  exists st1, m1, st2, m2. auto.
Qed.

(** ** len(body) against length *)

Lemma length_removelast_cons {A} (x : A) (l : list A) :
  List.length (removelast (x :: l)) = List.length l.
Proof.
  revert x. induction l as [|y l IH]; intros x; [reflexivity|].
  change (removelast (x :: y :: l)) with (x :: removelast (y :: l)).
  cbn [List.length]. now rewrite IH.
Qed.

(** After [move] the body has exactly [length] cells, provided it had
    [length] or [length - 1] cells before. *)
Lemma tick_move_length (events : list Event) (st st1 : Locals) (m m1 : Mem)
      (ps : list POINTER) :
  body (snake st) m = Some ps ->
  Z.of_nat (List.length ps) = Snake.length (snake st) \/
  Z.of_nat (List.length ps) + 1 = Snake.length (snake st) ->
  tick_move events st m = Ok (st1, m1) ->
  exists ps1,
    body (snake st1) m1 = Some ps1 /\
    Z.of_nat (List.length ps1) = Snake.length (snake st1).
Proof.
  intros Hb Hinv Hm.
  apply tick_move_Ok in Hm as (h & t & nh & Hb' & _ & _ & Hl & _ & _ & Hb1).
  rewrite Hb in Hb'. injection Hb' as ->.
  eexists. split; [exact Hb1|]. rewrite Hl.
  destruct (decide _) as [Hgt|Hle].
  - cbn [List.length] in *. rewrite length_removelast_cons. lia.
  - cbn [List.length] in *. lia.
Qed.

(** C2 (as amended).  From a state in which the body has [length] or
    [length - 1] cells, a complete pass leaves the body with exactly [length]
    cells right after [move]; at the end of the pass the body has [length]
    cells, except that it has [length - 1] cells when the apple was eaten on
    this pass and the snake was not reset: the cell is added by the next
    [move]. *)
Theorem tick_body_length (events : list Event) (st st' : Locals) (m m' : Mem)
        (ps : list POINTER) :
  body (snake st) m = Some ps ->
  Z.of_nat (List.length ps) = Snake.length (snake st) \/
  Z.of_nat (List.length ps) + 1 = Snake.length (snake st) ->
  tick events st m = Ok (st', m') ->
  exists st1 m1 st2 m2 ps1 hit ps',
    tick_move events st m = Ok (st1, m1) /\
    tick_eat st1 m1 = Ok (st2, m2) /\
    tick_collide st2 m2 = Ok (st', m') /\
    body (snake st1) m1 = Some ps1 /\
    Z.of_nat (List.length ps1) = Snake.length (snake st1) /\
    collides_with_self (snake st2) m2 = Ok (hit, m2) /\
    body (snake st') m' = Some ps' /\
    Z.of_nat (List.length ps') =
      Snake.length (snake st') -
      (if bool_decide (ps1 !! 0%nat = Some (Apple.position (apple st1))) && negb hit
       then 1 else 0).
Proof.
  intros Hb Hinv Ht.
  apply tick_Ok in Ht as (st1 & m1 & st2 & m2 & H1 & H2 & H3).
  destruct (tick_move_length _ _ _ _ _ _ Hb Hinv H1) as (ps1 & Hb1 & Hl1).
  exists st1, m1, st2, m2, ps1.
  pose proof (tick_eat_Ok _ _ _ _ H2) as (h1 & t1 & Hb1' & Hh2 & _ & He).
  rewrite Hb1 in Hb1'. injection Hb1' as ->.
  pose proof (tick_collide_Ok _ _ _ _ H3) as (h2 & t2 & Hb2 & Hc & _ & _ & Hr).
  exists (bool_decide (h2 ∈ t2)).
  (* the body seen after the apple test is the one seen after the move *)
  assert (Hb2' : body (snake st2) m2 = Some (h1 :: t1) /\
                 Snake.length (snake st2) =
                   Snake.length (snake st1) +
                   (if decide (h1 = Apple.position (apple st1)) then 1 else 0)).
  { destruct (decide (h1 = Apple.position (apple st1))).
    - destruct He as (-> & _ & _). unfold body in *.
      cbn [Snake.positions Snake.length Snake.set_length]. rewrite Hh2. auto.
    - destruct He as [-> ->]. split; [exact Hb1|lia]. }
  destruct Hb2' as [Hb2' Hl2]. rewrite Hb2 in Hb2'. injection Hb2' as -> ->.
  destruct (decide (h1 ∈ t1)) as [Hin|Hout].
  - destruct Hr as (mr & Hreset & Hrand).
    apply reset_Ok in Hreset as (r & _ & Hl' & Hb' & _).
    apply randomize_position_Ok in Hrand as [Hh' _].
    exists [SCREEN_CENTER]. do 5 (split; [assumption|]).
    split; [exact Hc|].
    split; [unfold body in *; now rewrite Hh'|].
    rewrite (bool_decide_eq_true_2 _ Hin).
    cbn [negb]. rewrite andb_false_r, Hl'. reflexivity.
  - destruct Hr as [-> ->].
    exists (h1 :: t1). do 5 (split; [assumption|]).
    split; [exact Hc|]. split; [exact Hb2|].
    rewrite (bool_decide_eq_false_2 _ Hout), andb_true_r, Hl2.
    cbn [lookup list_lookup].
    destruct (decide (h1 = Apple.position (apple st1))) as [He'|Hne].
    + rewrite bool_decide_eq_true_2 by congruence. lia.
    + rewrite bool_decide_eq_false_2 by congruence. lia.
Qed.

Lemma tick_body_length_witness :
  let st := mkLocals (Snake.mk SCREEN_CENTER SNAKE_COLOR 1 0%nat RIGHT None None)
                     (Apple.mk (340, 240) APPLE_COLOR 0%nat) 10 1 in
  let m := mkMem [[SCREEN_CENTER]] [18; 12] in
  let st' := mkLocals (Snake.mk SCREEN_CENTER SNAKE_COLOR 2 0%nat RIGHT None
                                (Some (320, 240)))
                      (Apple.mk (360, 240) APPLE_COLOR 0%nat) 10 2 in
  let m' := mkMem [[(340, 240)]] [] in
  tick [] st m = Ok (st', m') /\
  exists st1 m1 ps1 ps',
    tick_move [] st m = Ok (st1, m1) /\
    body (snake st1) m1 = Some ps1 /\
    Z.of_nat (List.length ps1) = Snake.length (snake st1) /\
    body (snake st') m' = Some ps' /\
    Z.of_nat (List.length ps') = Snake.length (snake st') - 1.
Proof.
  intros st m st' m'.
  assert (Ht : tick [] st m = Ok (st', m')) by (vm_compute; reflexivity).
  split; [exact Ht|].
  destruct (tick_body_length [] st st' m m' [SCREEN_CENTER] eq_refl
                             (or_introl eq_refl) Ht)
    as (st1 & m1 & st2 & m2 & ps1 & hit & ps' & H1 & H2 & H3 & Hb1 & Hl1 & Hc & Hb' & Hl').
  exists st1, m1, ps1, ps'. do 4 (split; [assumption|]).
  rewrite Hl'. f_equal.
  assert (E1 : tick_move [] st m =
               Ok (mkLocals (Snake.mk SCREEN_CENTER SNAKE_COLOR 1 0%nat RIGHT None
                                      (Some (320, 240)))
                            (Apple.mk (340, 240) APPLE_COLOR 0%nat) 10 1,
                   mkMem [[(340, 240)]] [18; 12])) by (vm_compute; reflexivity).
  rewrite E1 in H1. injection H1 as <- <-.
  assert (E2 : ps1 = [(340, 240)]) by (vm_compute in Hb1; congruence).
  subst ps1.
  assert (E3 : tick_eat
                 (mkLocals (Snake.mk SCREEN_CENTER SNAKE_COLOR 1 0%nat RIGHT None
                                     (Some (320, 240)))
                           (Apple.mk (340, 240) APPLE_COLOR 0%nat) 10 1)
                 (mkMem [[(340, 240)]] [18; 12]) = Ok (st', m'))
    by (vm_compute; reflexivity).
  rewrite E3 in H2. injection H2 as <- <-.
  assert (E4 : collides_with_self (snake st') m' = Ok (false, m'))
    by (vm_compute; reflexivity).
  rewrite E4 in Hc. injection Hc as <-. reflexivity.
Defined.

(** C2, counterexample.  The snake starts at the centre heading right and
    the first apple is the cell ahead of it.  After the first complete pass
    the body is the single cell [(340, 240)] while [length] is 2. *)
Lemma eaten_apple_breaks_length_equality :
  exists st m ps,
    main [[]] (mkMem [] [3; 17; 12; 18; 12]) = Ok (st, m) /\
    body (snake st) m = Some ps /\
    Z.of_nat (List.length ps) = 1 /\
    Snake.length (snake st) = 2 /\
    Z.of_nat (List.length ps) <> Snake.length (snake st).
Proof.
  eexists _, _, _. split; [vm_compute; reflexivity|].
  split; [reflexivity|]. split; [reflexivity|]. split; [reflexivity|].
  vm_compute. discriminate.
Qed.

(** ** The apple against the body *)

Lemma elem_of_removelast {A} (x : A) (l : list A) :
  x ∈ removelast l -> x ∈ l.
Proof.
  induction l as [|y l IH]; [easy|].
  destruct l as [|z l]; [cbn; intros H; inversion H|].
  change (removelast (y :: z :: l)) with (y :: removelast (z :: l)).
  rewrite !(elem_of_cons _ x y). intros [->|H]; auto.
Qed.

(** As long as the apple shares the snake's list object, a pass that does not
    reset the snake keeps the apple off the body: the constructor call
    [Apple(occupied_positions=snake.positions)] does its work on the eating
    path. *)
Lemma tick_keeps_food_off_body (events : list Event) (st st' : Locals)
      (m m' : Mem) (ps : list POINTER) :
  body (snake st) m = Some ps ->
  Apple.occupied_positions (apple st) = Snake.positions (snake st) ->
  (Apple.position (apple st) ∉ ps) ->
  tick events st m = Ok (st', m') ->
  Snake.positions (snake st') = Snake.positions (snake st) ->
  exists ps',
    body (snake st') m' = Some ps' /\
    Apple.occupied_positions (apple st') = Snake.positions (snake st') /\
    (Apple.position (apple st') ∉ ps').
Proof.
  intros Hb Halias Hoff Ht Hsame.
  apply tick_Ok in Ht as (st1 & m1 & st2 & m2 & H1 & H2 & H3).
  apply tick_move_Ok in H1 as (h & t & nh & Hb0 & Ha1 & _ & _ & Hp1 & _ & Hb1).
  rewrite Hb in Hb0. injection Hb0 as ->.
  apply tick_eat_Ok in H2 as (h1 & t1 & Hb1' & Hh2 & _ & He).
  rewrite Hb1 in Hb1'.
  assert (Ht1 : forall x, x ∈ t1 -> x ∈ h :: t).
  { destruct (decide _); injection Hb1' as _ <-; [|auto].
    intros x Hx. apply (elem_of_removelast x (h :: t)). exact Hx. }
  assert (H2' : body (snake st2) m2 = Some (h1 :: t1) /\
                Snake.positions (snake st2) = Snake.positions (snake st) /\
                Apple.occupied_positions (apple st2) = Snake.positions (snake st) /\
                (Apple.position (apple st2) ∉ h1 :: t1)).
  { rewrite Hb1' in Hb1. clear Hb1'.
    destruct (decide (h1 = Apple.position (apple st1))) as [Heq|Hne].
    - destruct He as (Hs & _ & Hr).
      apply randomize_position_Ok in Hr as (_ & occ & Ho & Hset & Hnot & _).
      rewrite Ha1, Halias, <- Hp1 in Ho. unfold body in Hb1.
      rewrite Hb1 in Ho. injection Ho as <-.
      unfold body. rewrite Hs. cbn [Snake.positions Snake.set_length].
      rewrite Hh2, Hset. cbn [Apple.occupied_positions Apple.set_position].
      rewrite Ha1. auto.
    - destruct He as [-> ->]. rewrite Ha1 in *.
      do 3 (split; [auto|]).
      rewrite elem_of_cons. intros [E|E]; [congruence|].
      apply Hoff, Ht1, E. }
  destruct H2' as (Hb2 & Hp2 & Ha2 & Hoff2).
  apply tick_collide_Ok in H3 as (h2 & t2 & Hb2' & _ & _ & _ & Hc).
  destruct (decide (h2 ∈ t2)).
  - exfalso. destruct Hc as (mr & Hreset & _).
    apply reset_Ok in Hreset as (_ & _ & _ & _ & _ & _ & Hfresh).
    unfold body in Hb2. apply lookup_lt_Some in Hb2. lia.
  - destruct Hc as [-> ->]. exists (h1 :: t1).
    rewrite Hp2. auto.
Qed.

(** ** record_length *)

Lemma main_loop_app (inputs1 inputs2 : list (list Event)) (st : Locals) (m : Mem)
      (r : Locals * Mem) :
  main_loop (inputs1 ++ inputs2) st m = Ok r ->
  exists st1 m1,
    main_loop inputs1 st m = Ok (st1, m1) /\ main_loop inputs2 st1 m1 = Ok r.
Proof.
  revert st m. induction inputs1 as [|events rest IH]; intros st m.
  - intros H. exists st, m. auto.
  - cbn [app main_loop]. rewrite bind_Ok. intros (st1 & m1 & Ht & H).
    apply IH in H as (st2 & m2 & H1 & H2).
    exists st2, m2. split; [|exact H2].
    rewrite bind_run, Ht. exact H1.
Qed.

(** One pass: the record afterwards is the larger of the record before and
    the length after the apple test, and it bounds the three lengths seen. *)
Lemma tick_record (events : list Event) (st st' : Locals) (m m' : Mem) :
  tick events st m = Ok (st', m') ->
  Snake.length (snake st) <= record_length st ->
  1 <= record_length st ->
  exists st1 m1 st2 m2,
    tick_move events st m = Ok (st1, m1) /\
    tick_eat st1 m1 = Ok (st2, m2) /\
    tick_collide st2 m2 = Ok (st', m') /\
    Snake.length (snake st1) <= Snake.length (snake st2) /\
    record_length st' = Z.max (record_length st) (Snake.length (snake st2)) /\
    Snake.length (snake st') <= record_length st'.
Proof.
  intros Ht Hle H1r.
  apply tick_Ok in Ht as (st1 & m1 & st2 & m2 & H1 & H2 & H3).
  exists st1, m1, st2, m2. do 3 (split; [assumption|]).
  apply tick_move_Ok in H1 as (_ & _ & _ & _ & _ & Hr1 & Hl1 & _).
  apply tick_eat_Ok in H2 as (h & t & _ & _ & _ & He).
  apply tick_collide_Ok in H3 as (h' & t' & _ & _ & Hr3 & _ & Hc).
  assert (Hlen' : Snake.length (snake st') = Snake.length (snake st2) \/
                  Snake.length (snake st') = 1).
  { destruct (decide (h' ∈ t')).
    - destruct Hc as (mr & Hreset & _).
      apply reset_Ok in Hreset as (_ & _ & Hl & _). auto.
    - destruct Hc as [-> _]. auto. }
  destruct (decide (h = Apple.position (apple st1))).
  - destruct He as (Hs & Hr2 & _). rewrite Hs in *.
    cbn [Snake.length Snake.set_length] in *. lia.
  - destruct He as [-> _]. lia.
Qed.

Lemma tick_record_mono (events : list Event) (st st' : Locals) (m m' : Mem) :
  tick events st m = Ok (st', m') -> record_length st <= record_length st'.
Proof.
  intros Ht.
  apply tick_Ok in Ht as (st1 & m1 & st2 & m2 & H1 & H2 & H3).
  apply tick_move_Ok in H1 as (_ & _ & _ & _ & _ & Hr1 & _).
  apply tick_eat_Ok in H2 as (h & t & _ & _ & _ & He).
  apply tick_collide_Ok in H3 as (h' & t' & _ & _ & Hr3 & _).
  destruct (decide (h = Apple.position (apple st1))).
  - destruct He as (_ & Hr2 & _). lia.
  - destruct He as [-> _]. lia.
Qed.

Lemma main_loop_record_mono (inputs : list (list Event)) (st st' : Locals)
      (m m' : Mem) :
  main_loop inputs st m = Ok (st', m') -> record_length st <= record_length st'.
Proof.
  revert st m. induction inputs as [|events rest IH]; intros st m.
  - cbn [main_loop]. rewrite ret_run. intros [= <- <-]. lia.
  - cbn [main_loop]. rewrite bind_Ok. intros (st1 & m1 & Ht & H).
    apply tick_record_mono in Ht. apply IH in H. lia.
Qed.

Lemma foldr_max_max (a b : Z) (l : list Z) :
  foldr Z.max (Z.max a b) l = Z.max a (foldr Z.max b l).
Proof. induction l as [|x l IH]; cbn [foldr]; lia. Qed.

Lemma main_loop_record (inputs : list (list Event)) (st st' : Locals) (m m' : Mem) :
  main_loop inputs st m = Ok (st', m') ->
  Snake.length (snake st) <= record_length st ->
  1 <= record_length st ->
  record_length st' = foldr Z.max (record_length st) (loop_lengths inputs st m).
Proof.
  revert st m. induction inputs as [|events rest IH]; intros st m.
  - cbn [main_loop]. rewrite ret_run. intros [= <- <-]. reflexivity.
  - cbn [main_loop]. rewrite bind_Ok. intros (st3 & m3 & Ht & H) Hle H1r.
    destruct (tick_record _ _ _ _ _ Ht Hle H1r)
      as (st1 & m1 & st2 & m2 & H1 & H2 & H3 & Hl12 & Hr3 & Hl3).
    cbn [loop_lengths]. rewrite H1, H2, H3. cbn [foldr].
    rewrite (IH _ _ H Hl3) by lia.
    rewrite Hr3, (Z.max_comm (record_length st)), foldr_max_max.
    pose proof (main_loop_record_mono _ _ _ _ _ H).
    assert (Hf : record_length st <= foldr Z.max (record_length st) (loop_lengths rest st3 m3)).
    { clear. induction (loop_lengths rest st3 m3); cbn [foldr]; lia. }
    lia.
Qed.

Lemma foldr_max_attained (a : Z) (l : list Z) :
  foldr Z.max a l ∈ a :: l /\ forall x, x ∈ a :: l -> x <= foldr Z.max a l.
Proof.
  induction l as [|y l [IHin IHle]]; cbn [foldr].
  - split; [apply list_elem_of_here|].
    intros x Hx. apply list_elem_of_singleton in Hx. lia.
  - split.
    + destruct (Z.max_spec y (foldr Z.max a l)) as [[_ ->]|[_ ->]].
      * apply elem_of_cons in IHin as [->|Hin]; [apply list_elem_of_here|].
        do 2 apply list_elem_of_further. exact Hin.
      * apply list_elem_of_further, list_elem_of_here.
    + intros x Hx. apply elem_of_cons in Hx as [->|Hx].
      * specialize (IHle a (list_elem_of_here _ _)). lia.
      * apply elem_of_cons in Hx as [->|Hx]; [lia|].
        specialize (IHle x (list_elem_of_further _ _ _ Hx)). lia.
Qed.

Lemma main_setup_Ok (m m' : Mem) (st : Locals) :
  main_setup m = Ok (st, m') ->
  Snake.length (snake st) = 1 /\ record_length st = 1 /\
  body (snake st) m' = Some [SCREEN_CENTER] /\
  Apple.occupied_positions (apple st) = Snake.positions (snake st) /\
  (Apple.position (apple st) ∉ [SCREEN_CENTER]).
Proof.
  unfold main_setup. rewrite bind_Ok. intros (s & m1 & Hi & H).
  rewrite bind_Ok in H. destruct H as (a & m2 & Ha & H).
  rewrite ret_run in H. injection H as <- <-. cbn [snake apple record_length].
  rewrite init_run in Hi. destruct (tape m) as [|r t]; [discriminate|].
  injection Hi as <- <-. cbn [Snake.length Snake.positions].
  unfold Apple.init in Ha. rewrite bind_run, ret_run in Ha.
  apply randomize_position_Ok in Ha as (Hh & occ & Ho & Hset & Hnot & _).
  cbn [Apple.occupied_positions Snake.positions heap] in *.
  rewrite lookup_fresh in Ho. injection Ho as <-.
  split; [reflexivity|]. split; [reflexivity|].
  split; [unfold body; cbn [Snake.positions]; rewrite Hh; apply lookup_fresh|].
  split; [now rewrite Hset|exact Hnot].
Qed.

(** C9.  Over a run of [main]: the record after a prefix of the passes is at
    most the record after all of them; the record is the maximum of the
    values [snake.length] has taken since construction; the apple test sets
    the record to the length after growth exactly when that length exceeds
    it; the collision test, reset included, leaves the record alone. *)
Theorem record_length_is_running_maximum
    (inputs1 inputs2 : list (list Event)) (m0 : Mem) (st2 : Locals) (m2 : Mem) :
  main (inputs1 ++ inputs2) m0 = Ok (st2, m2) ->
  (exists st1 m1,
      main inputs1 m0 = Ok (st1, m1) /\
      record_length st1 <= record_length st2) /\
  (record_length st2 ∈ main_lengths (inputs1 ++ inputs2) m0 /\
   forall l, l ∈ main_lengths (inputs1 ++ inputs2) m0 -> l <= record_length st2) /\
  (forall st m st' m',
      tick_eat st m = Ok (st', m') ->
      Snake.length (snake st) <= record_length st ->
      record_length st' =
        if decide (Snake.length (snake st') > record_length st)
        then Snake.length (snake st') else record_length st) /\
  (forall st m st' m',
      tick_collide st m = Ok (st', m') -> record_length st' = record_length st).
Proof.
  intros Hmain. unfold main in Hmain. rewrite bind_Ok in Hmain.
  destruct Hmain as (st0 & m0' & Hs & Hl).
  pose proof (main_setup_Ok _ _ _ Hs) as (Hl0 & Hr0 & _).
  split; [|split; [|split]].
  - apply main_loop_app in Hl as (st1 & m1 & H1 & H2).
    exists st1, m1. split.
    + unfold main. now rewrite bind_run, Hs.
    + eapply main_loop_record_mono, H2.
  - unfold main_lengths. rewrite Hs.
    rewrite (main_loop_record _ _ _ _ _ Hl) by lia.
    rewrite Hr0, Hl0. apply foldr_max_attained.
  - intros st m st' m' He Hle.
    apply tick_eat_Ok in He as (h & t & _ & _ & _ & He).
    destruct (decide (h = Apple.position (apple st))).
    + destruct He as (-> & -> & _). cbn [Snake.length Snake.set_length].
      destruct (decide _); lia.
    + destruct He as [-> _]. destruct (decide _); lia.
  - intros st m st' m' Hc.
    now apply tick_collide_Ok in Hc as (h & t & _ & _ & Hr & _).
Qed.

Lemma record_length_is_running_maximum_witness :
  let st := mkLocals (Snake.mk SCREEN_CENTER SNAKE_COLOR 1 0%nat RIGHT None
                               (Some (320, 240)))
                     (Apple.mk (340, 240) APPLE_COLOR 0%nat) 10 1 in
  let m := mkMem [[(340, 240)]] [18; 12] in
  (exists st1 m1 st2 m2,
      main (take 4 tight_loop_inputs ++ drop 4 tight_loop_inputs)
           (mkMem [] tight_loop_tape) = Ok (st2, m2) /\
      main (take 4 tight_loop_inputs) (mkMem [] tight_loop_tape) = Ok (st1, m1) /\
      record_length st1 <= record_length st2 /\
      record_length st2 = 5 /\
      Snake.length (snake st2) = 1) /\
  (exists st' m',
      tick_eat st m = Ok (st', m') /\
      Snake.length (snake st) <= record_length st /\
      Snake.length (snake st') = 2 /\
      record_length st' = 2).
Proof.
  intros st m.
  destruct (main (take 4 tight_loop_inputs ++ drop 4 tight_loop_inputs)
                 (mkMem [] tight_loop_tape)) as [[st2 m2]|h] eqn:Hm;
    [|vm_compute in Hm; discriminate].
  destruct (record_length_is_running_maximum _ _ _ _ _ Hm)
    as ((st1 & m1 & H1 & Hle) & _ & Heat & _).
  split.
  - exists st1, m1, st2, m2. split; [reflexivity|].
    split; [exact H1|]. split; [exact Hle|].
    vm_compute in Hm. injection Hm as <- <-. split; reflexivity.
  - destruct (tick_eat st m) as [[st' m']|h] eqn:He;
      [|vm_compute in He; discriminate].
    assert (Hl : Snake.length (snake st) <= record_length st)
      by (vm_compute; discriminate).
    pose proof (Heat st m st' m' He Hl) as Hrec.
    exists st', m'. split; [reflexivity|]. split; [exact Hl|].
    vm_compute in He. injection He as <- <-.
    split; [reflexivity|]. rewrite Hrec. reflexivity.
Defined.

(** ** The body is never empty *)

Lemma reachable_body (self : Snake.t) (m : Mem) :
  reachable self m ->
  exists h t, body self m = Some (h :: t) /\ 1 <= Snake.length self.
Proof.
  induction 1 as [m self m' Hi
                 |self m self' m' _ (h & t & Hb & Hl) Hm
                 |self m _ (h & t & Hb & Hl)
                 |self m self' m' _ _ Hr
                 |self m speed event _ (h & t & Hb & Hl)
                 |self m _ (h & t & Hb & Hl)
                 |self m tp _ (h & t & Hb & Hl)].
  - rewrite init_run in Hi. destruct (tape m) as [|r tp]; [discriminate|].
    injection Hi as <- <-. exists SCREEN_CENTER, [].
    split; [apply lookup_fresh|]. cbn [Snake.length]. lia.
  - destruct (move_effect self m h t Hb) as (s & m1 & Hm' & Hl' & _ & H).
    rewrite Hm in Hm'. injection Hm' as <- <-. rewrite Hl'.
    destruct (decide _); destruct H as [H _]; eauto.
  - exists h, t. split; [exact Hb|]. cbn [Snake.length Snake.set_length]. lia.
  - apply reset_Ok in Hr as (r & _ & Hl & Hb & _).
    exists SCREEN_CENTER, []. split; [exact Hb|lia].
  - rewrite handle_event_snake. exists h, t. auto.
  - exists h, t. unfold Snake.update_direction.
    destruct (Snake.next_direction self); auto.
  - exists h, t. auto.
Qed.

(** C10.  In every state of the snake reachable by construction, [move],
    growth and [reset], the body is a non-empty list and [length >= 1]; so
    [get_head_position] returns the first cell, [move] returns (into a state
    that is reachable again) and [draw] returns: none of them raises
    [IndexError]. *)
Theorem head_access_total (self : Snake.t) (m : Mem) :
  reachable self m ->
  exists h t,
    body self m = Some (h :: t) /\
    1 <= Snake.length self /\
    Snake.get_head_position self m = Ok (h, m) /\
    (exists self' m', Snake.move self m = Ok (self', m') /\ reachable self' m') /\
    (exists cmds, Snake.draw self m = Ok (cmds, m)).
Proof.
  intros Hr. destruct (reachable_body self m Hr) as (h & t & Hb & Hl).
  exists h, t. split; [exact Hb|]. split; [exact Hl|].
  split; [now apply (get_head_position_run _ _ _ t)|]. split.
  - destruct (move_effect self m h t Hb) as (self' & m' & Hm & _).
    exists self', m'. split; [exact Hm|]. eapply reach_move; eauto.
  - eapply draw_run, Hb.
Qed.

Lemma head_access_total_witness :
  let self := Snake.mk SCREEN_CENTER SNAKE_COLOR 1 0%nat RIGHT None None in
  let m := mkMem [[SCREEN_CENTER]] [] in
  reachable self m /\
  Snake.get_head_position self m = Ok (SCREEN_CENTER, m) /\
  exists self' m', Snake.move self m = Ok (self', m').
Proof.
  intros self m.
  assert (Hr : reachable self m) by (apply (reach_init (mkMem [] [3])); reflexivity).
  split; [exact Hr|].
  destruct (head_access_total self m Hr) as (h & t & Hb & _ & Hg & (self' & m' & Hm & _) & _).
  split; [|eauto].
  rewrite Hg. injection Hb as <- _. reflexivity.
Defined.

(** ** Scenarios *)

(** C8.  The snake is built at pixel [(320, 240)], cell [(16, 12)] of the
    32 x 24 board, heading right.  After 31 calls of [move], with [length]
    still 1 and the direction untouched, its head is at pixel [(300, 240)],
    cell [(15, 12)]; along the way the x coordinate fell once, from the last
    column to the first. *)
Theorem thirty_one_moves_right :
  exists self0 m0 self m,
    (GRID_WIDTH, GRID_HEIGHT) = (32, 24) /\
    Snake.init (mkMem [] [3]) = Ok (self0, m0) /\
    Snake.direction self0 = RIGHT /\
    Snake.length self0 = 1 /\
    body self0 m0 = Some [(16 * GRID_SIZE, 12 * GRID_SIZE)] /\
    moves 31 self0 m0 = Ok (self, m) /\
    Snake.length self = 1 /\
    Snake.direction self = RIGHT /\
    body self m = Some [(15 * GRID_SIZE, 12 * GRID_SIZE)] /\
    Snake.get_head_position self m = Ok ((300, 240), m) /\
    wraps (heads 31 self0 m0) = 1%nat /\
    (620, 240) ∈ heads 31 self0 m0 /\
    (0, 240) ∈ heads 31 self0 m0.
Proof.
  eexists _, _, _, _.
  split; [reflexivity|]. split; [vm_compute; reflexivity|].
  split; [reflexivity|]. split; [reflexivity|]. split; [reflexivity|].
  split; [vm_compute; reflexivity|].
  split; [reflexivity|]. split; [reflexivity|]. split; [reflexivity|].
  split; [reflexivity|]. split; [vm_compute; reflexivity|].
  split; apply list_elem_of_In; vm_compute; tauto.
Qed.

(** C4, evaluated on the run of [tight_loop_inputs].  After six passes the
    seventh [move] drives the head into the body; [reset], called on that
    snake, gives [length = 1], the body [[SCREEN_CENTER]], a direction among
    the four and no pending direction, but [last] still holds the cell
    [(360, 240)] popped by that [move], whereas the constructor starts with
    [last = None]. *)
Theorem reset_keeps_last_cell :
  exists st m st1 m1 self' m',
    main (take 6 tight_loop_inputs) (mkMem [] tight_loop_tape) = Ok (st, m) /\
    tick_move [KEYDOWN K_DOWN] st m = Ok (st1, m1) /\
    tick_eat st1 m1 = Ok (st1, m1) /\
    collides_with_self (snake st1) m1 = Ok (true, m1) /\
    Snake.last (snake st1) = Some (360, 240) /\
    Snake.reset (snake st1) m1 = Ok (self', m') /\
    Snake.length self' = 1 /\
    body self' m' = Some [SCREEN_CENTER] /\
    Snake.direction self' ∈ directions /\
    Snake.next_direction self' = None /\
    Snake.last self' = Some (360, 240) /\
    Snake.last self' <> None /\
    exists self0 m0,
      Snake.init (mkMem [] [3]) = Ok (self0, m0) /\ Snake.last self0 = None.
Proof.
  eexists _, _, _, _, _, _.
  split; [vm_compute; reflexivity|]. split; [vm_compute; reflexivity|].
  split; [vm_compute; reflexivity|]. split; [vm_compute; reflexivity|].
  split; [reflexivity|]. split; [vm_compute; reflexivity|].
  split; [reflexivity|]. split; [reflexivity|].
  split; [apply list_elem_of_In; vm_compute; tauto|].
  split; [reflexivity|]. split; [reflexivity|]. split; [discriminate|].
  eexists _, _. split; [vm_compute; reflexivity|reflexivity].
Qed.

(** C1, evaluated on the run of [tight_loop_inputs].  The seventh pass ends
    in a reset.  [reset] binds [snake.positions] to a new list, while the
    apple still holds the list the snake had before; the apple is drawn
    against that old body and lands on [SCREEN_CENTER], the one cell of the
    snake after the reset. *)
Theorem food_on_snake_after_reset :
  exists st m old,
    main tight_loop_inputs (mkMem [] tight_loop_tape) = Ok (st, m) /\
    body (snake st) m = Some [SCREEN_CENTER] /\
    Apple.position (apple st) = SCREEN_CENTER /\
    Apple.position (apple st) ∈ [SCREEN_CENTER] /\
    Apple.occupied_positions (apple st) <> Snake.positions (snake st) /\
    heap m !! Apple.occupied_positions (apple st) = Some old /\
    (SCREEN_CENTER ∉ old).
Proof.
  eexists _, _, _. split; [vm_compute; reflexivity|].
  split; [reflexivity|]. split; [reflexivity|].
  split; [apply list_elem_of_here|]. split; [vm_compute; discriminate|].
  split; [reflexivity|].
  rewrite list_elem_of_In. vm_compute. intuition discriminate.
Qed.

(** * Further properties of the module *)

(** ** handle_keys: speed, quit, ignored events *)

Lemma handle_event_speed (snake : Snake.t) (speed : Z) (event : Event) :
  let speed' := (handle_event snake speed event).2 in
  (speed_key event = false -> speed' = speed) /\
  (MIN_SPEED <= speed <= MAX_SPEED ->
   MIN_SPEED <= speed' <= MAX_SPEED /\ Z.abs (speed' - speed) <= 1).
Proof.
  destruct event as [|key|]; cbn [handle_event snd speed_key];
    unfold MIN_SPEED, MAX_SPEED;
    try (repeat split; (congruence || lia)).
  destruct key; cbn [snd]; repeat split; try congruence; lia.
Qed.

Lemma handle_keys_speed
    (events : list Event) (snake snake' : Snake.t) (speed speed' : Z) (m m' : Mem) :
  handle_keys snake speed events m = Ok ((snake', speed'), m') ->
  MIN_SPEED <= speed <= MAX_SPEED ->
  MIN_SPEED <= speed' <= MAX_SPEED /\
  Z.abs (speed' - speed) <= Z.of_nat (List.length (filter speed_key events)).
Proof.
  revert snake speed. induction events as [|event rest IH]; intros snake speed.
  - cbn [handle_keys]. rewrite ret_run. intros [= <- <- <-] Hin.
    cbn. split; [exact Hin|lia].
  - cbn [handle_keys]. destruct (is_quit event); [discriminate|].
    pose proof (handle_event_speed snake speed event) as (Hsame & Hstep).
    destruct (handle_event snake speed event) as [snake1 speed1].
    cbn [snd] in *. intros H Hin. destruct (Hstep Hin) as [Hin1 Hd1].
    destruct (IH _ _ H Hin1) as [Hb Hd].
    rewrite filter_cons. split; [exact Hb|].
    destruct (speed_key event) eqn:Hk.
    + rewrite decide_True by exact I. cbn [List.length]. lia.
    + rewrite decide_False by (intros []). rewrite (Hsame eq_refl) in Hd. exact Hd.
Qed.

(** X1.  Started within [MIN_SPEED, MAX_SPEED], a drain of the queue that
    meets no quit event returns a speed within these bounds, at most one
    unit away from the old speed per press of [+], [=] or [-]; without such
    a press the speed is returned as it was. *)
Theorem handle_keys_speed_clamped
    (events : list Event) (snake snake' : Snake.t) (speed speed' : Z) (m m' : Mem) :
  handle_keys snake speed events m = Ok ((snake', speed'), m') ->
  MIN_SPEED <= speed <= MAX_SPEED ->
  MIN_SPEED <= speed' <= MAX_SPEED /\
  Z.abs (speed' - speed) <= Z.of_nat (List.length (filter speed_key events)).
Proof. exact (handle_keys_speed events snake snake' speed speed' m m'). Qed.

Lemma handle_keys_speed_clamped_witness :
  let snake := Snake.mk SCREEN_CENTER SNAKE_COLOR 1 0%nat RIGHT None None in
  let snake' := Snake.mk SCREEN_CENTER SNAKE_COLOR 1 0%nat RIGHT (Some UP) None in
  let events := [KEYDOWN K_PLUS; KEYDOWN K_UP; KEYDOWN K_EQUALS; OTHER_EVENT] in
  handle_keys snake 19 events (mkMem [] []) = Ok ((snake', 20), mkMem [] []) /\
  MIN_SPEED <= 20 <= MAX_SPEED.
Proof.
  intros snake snake' events.
  assert (Hk : handle_keys snake 19 events (mkMem [] [])
               = Ok ((snake', 20), mkMem [] [])) by (vm_compute; reflexivity).
  split; [exact Hk|].
  apply (handle_keys_speed_clamped events snake snake' 19 20 _ _ Hk).
  unfold MIN_SPEED, MAX_SPEED. lia.
Defined.

Lemma handle_keys_quit (events : list Event) (snake : Snake.t) (speed : Z) (m : Mem) :
  existsb is_quit events = true ->
  handle_keys snake speed events m = Halt SystemExit.
Proof.
  revert snake speed. induction events as [|event rest IH]; intros snake speed;
    [discriminate|].
  cbn [existsb handle_keys]. destruct (is_quit event); [reflexivity|].
  cbn [orb]. destruct (handle_event snake speed event). apply IH.
Qed.

(** X2.  A [QUIT] event or a press of [K_ESCAPE] anywhere in the queue ends
    the program: [handle_keys] raises [SystemExit], and so does the pass of
    the loop, before the snake is moved; any other queue is drained without
    an exception and without touching the memory. *)
Theorem quit_raises_SystemExit
    (events : list Event) (st : Locals) (m : Mem) (rest : list (list Event)) :
  (existsb is_quit events = true ->
   handle_keys (snake st) (speed st) events m = Halt SystemExit /\
   tick_move events st m = Halt SystemExit /\
   tick events st m = Halt SystemExit /\
   main_loop (events :: rest) st m = Halt SystemExit) /\
  (existsb is_quit events = false ->
   exists snake' speed',
     handle_keys (snake st) (speed st) events m = Ok ((snake', speed'), m)).
Proof.
  split.
  - intros Hq. pose proof (handle_keys_quit events (snake st) (speed st) m Hq) as Hk.
    assert (Hm : tick_move events st m = Halt SystemExit)
      by (unfold tick_move; now rewrite bind_run, Hk).
    assert (Ht : tick events st m = Halt SystemExit)
      by (unfold tick; now rewrite bind_run, Hm).
    repeat split; try assumption.
    cbn [main_loop]. now rewrite bind_run, Ht.
  - apply handle_keys_total.
Qed.

Lemma quit_raises_SystemExit_witness :
  let st := mkLocals (Snake.mk SCREEN_CENTER SNAKE_COLOR 1 0%nat RIGHT None None)
                     (Apple.mk (340, 240) APPLE_COLOR 0%nat) 10 1 in
  let m := mkMem [[SCREEN_CENTER]] [18; 12] in
  tick [KEYDOWN K_LEFT; KEYDOWN K_ESCAPE; KEYDOWN K_UP] st m = Halt SystemExit /\
  exists snake' speed',
    handle_keys (snake st) (speed st) [KEYDOWN K_LEFT; OTHER_EVENT] m
      = Ok ((snake', speed'), m).
Proof.
  intros st m. split.
  - apply (quit_raises_SystemExit
             [KEYDOWN K_LEFT; KEYDOWN K_ESCAPE; KEYDOWN K_UP] st m []).
    reflexivity.
  - apply (quit_raises_SystemExit [KEYDOWN K_LEFT; OTHER_EVENT] st m []).
    reflexivity.
Defined.

(** X3.  Events that are neither quit events nor presses of one of the
    eight keys named in [handle_keys] have no effect at all: dropping them
    from the queue gives the same snake, speed and outcome. *)
Theorem handle_keys_ignores_other_events
    (events : list Event) (snake : Snake.t) (speed : Z) (m : Mem) :
  handle_keys snake speed (filter (fun e => significant e = true) events) m =
  handle_keys snake speed events m.
Proof.
  revert snake speed. induction events as [|event rest IH]; intros snake speed;
    [reflexivity|].
  rewrite filter_cons.
  destruct (significant event) eqn:Hs.
  - rewrite decide_True by reflexivity. cbn [handle_keys].
    destruct (is_quit event); [reflexivity|].
    destruct (handle_event snake speed event). apply IH.
  - rewrite decide_False by discriminate. rewrite IH.
    destruct event as [|[]|]; try discriminate; reflexivity.
Qed.

(** ** Snake: update_direction, move *)

Lemma set_next_direction_None_id (self : Snake.t) :
  Snake.next_direction self = None -> Snake.set_next_direction None self = self.
Proof. destruct self. cbn. now intros ->. Qed.

(** X4.  [update_direction] commits the pending direction and clears it, and
    doing it twice changes nothing more.  [move] commits the pending
    direction by itself, so calling [update_direction] first gives the same
    body, direction, [last] and [length]; the one difference is that
    [next_direction] ends cleared instead of still pending. *)
Theorem update_direction_then_move
    (self : Snake.t) (m : Mem) (h : POINTER) (t : list POINTER) :
  body self m = Some (h :: t) ->
  Snake.update_direction (Snake.update_direction self) = Snake.update_direction self /\
  Snake.next_direction (Snake.update_direction self) = None /\
  Snake.direction (Snake.update_direction self) = heading self /\
  exists self1 m',
    Snake.move self m = Ok (self1, m') /\
    Snake.move (Snake.update_direction self) m
      = Ok (Snake.set_next_direction None self1, m') /\
    Snake.next_direction self1 = Snake.next_direction self /\
    Snake.direction self1 = heading self.
Proof.
  intros Hb.
  assert (Hb2 : body (Snake.update_direction self) m = Some (h :: t))
    by (unfold body, Snake.update_direction in *;
        now destruct (Snake.next_direction self)).
  pose proof (move_run _ _ _ _ Hb) as H1.
  pose proof (move_run _ _ _ _ Hb2) as H2.
  destruct self as [p c n r d [d'|] l]; unfold heading in *;
    cbn in H1, H2; cbn [Snake.update_direction Snake.next_direction
                        Snake.set_next_direction Snake.set_direction
                        Snake.position Snake.body_color Snake.length
                        Snake.positions Snake.direction Snake.last default];
    (do 3 (split; [reflexivity|]));
    rewrite H1; cbn in H2 |- *; rewrite ?H2;
    destruct (_ >? n); eexists _, _; repeat split.
Qed.

Lemma update_direction_then_move_witness :
  let self := Snake.mk SCREEN_CENTER SNAKE_COLOR 2 0%nat RIGHT (Some UP) None in
  let m := mkMem [[(340, 240); (320, 240)]] [] in
  Snake.direction (Snake.update_direction self) = UP /\
  exists self1 m',
    Snake.move self m = Ok (self1, m') /\
    body self1 m' = Some [(340, 220); (340, 240)] /\
    Snake.next_direction self1 = Some UP.
Proof.
  intros self m.
  destruct (update_direction_then_move self m (340, 240) [(320, 240)] eq_refl)
    as (_ & _ & Hd & self1 & m' & Hm & _ & Hn & _).
  split; [exact Hd|]. exists self1, m'. split; [exact Hm|].
  split; [|exact Hn].
  vm_compute in Hm. injection Hm as <- <-. reflexivity.
Defined.

(** X7.  On a snake whose list of positions is empty, [get_head_position],
    [move] and [draw] all raise [IndexError]. *)
Theorem empty_body_raises_IndexError (self : Snake.t) (m : Mem) :
  body self m = Some [] ->
  Snake.get_head_position self m = Halt IndexError /\
  Snake.move self m = Halt IndexError /\
  Snake.draw self m = Halt IndexError.
Proof.
  intros Hb. unfold body in Hb.
  assert (Hg : forall s, Snake.positions s = Snake.positions self ->
                         Snake.get_head_position s m = Halt IndexError).
  { intros s Hs. unfold Snake.get_head_position.
    rewrite bind_run, Hs, (load_run _ _ _ Hb). reflexivity. }
  split; [now apply Hg|]. split.
  - unfold Snake.move. rewrite bind_run, Hg; [reflexivity|].
    now destruct (Snake.next_direction self).
  - unfold Snake.draw. rewrite bind_run, (load_run _ _ _ Hb). reflexivity.
Qed.

Lemma empty_body_raises_IndexError_witness :
  Snake.move (Snake.mk SCREEN_CENTER SNAKE_COLOR 1 0%nat RIGHT None None)
             (mkMem [[]] []) = Halt IndexError.
Proof.
  apply (empty_body_raises_IndexError
           (Snake.mk SCREEN_CENTER SNAKE_COLOR 1 0%nat RIGHT None None)
           (mkMem [[]] []) eq_refl).
Defined.

Lemma move_frame
    (self self' : Snake.t) (m m' : Mem) (ps : list POINTER) :
  body self m = Some ps ->
  Snake.move self m = Ok (self', m') ->
  tape m' = tape m /\
  List.length (heap m') = List.length (heap m) /\
  (forall r, r <> Snake.positions self -> heap m' !! r = heap m !! r) /\
  exists ps',
    body self' m' = Some ps' /\
    (List.length ps <= List.length ps' <= S (List.length ps))%nat.
Proof.
  intros Hb Hm. destruct (move_Ok_body _ _ _ Hm) as (h & t & Hb').
  rewrite Hb in Hb'. injection Hb' as ->.
  destruct (move_effect self m h t Hb) as (s1 & m1 & Hm1 & _ & Hp & Hbody).
  rewrite Hm in Hm1. injection Hm1 as <- <-.
  rewrite (move_run _ _ _ _ Hb) in Hm.
  assert (Hheap : exists l, m' = mkMem (<[Snake.positions self := l]> (heap m)) (tape m)).
  { destruct (Z.of_nat _ >? _); injection Hm as _ <-; eauto. }
  destruct Hheap as [l ->]. cbn [heap tape].
  split; [reflexivity|]. split; [apply length_insert|].
  split; [intros r Hr; now apply list_lookup_insert_ne|].
  destruct (decide _); destruct Hbody as [Hbody _]; eexists; (split; [exact Hbody|]).
  - cbn [List.length]. rewrite length_removelast_cons. lia.
  - cbn [List.length]. lia.
Qed.

(** X8.  [move] works on the snake's own list object only: every other list
    object, the number of list objects and the random tape are as before;
    the body keeps its size or gains one cell, never loses one. *)
Theorem move_touches_only_own_body
    (self self' : Snake.t) (m m' : Mem) (ps : list POINTER) :
  body self m = Some ps ->
  Snake.move self m = Ok (self', m') ->
  tape m' = tape m /\
  List.length (heap m') = List.length (heap m) /\
  (forall r, r <> Snake.positions self -> heap m' !! r = heap m !! r) /\
  exists ps',
    body self' m' = Some ps' /\
    (List.length ps <= List.length ps' <= S (List.length ps))%nat.
Proof. exact (move_frame self self' m m' ps). Qed.

Lemma move_touches_only_own_body_witness :
  let self := Snake.mk SCREEN_CENTER SNAKE_COLOR 1 1%nat RIGHT None None in
  let m := mkMem [[(0, 0); (20, 0)]; [(620, 240)]] [7; 8] in
  exists self' m',
    Snake.move self m = Ok (self', m') /\
    tape m' = [7; 8] /\
    heap m' !! 0%nat = Some [(0, 0); (20, 0)].
Proof.
  intros self m.
  destruct (Snake.move self m) as [[self' m']|] eqn:Hm;
    [|vm_compute in Hm; discriminate].
  destruct (move_touches_only_own_body self self' m m' [(620, 240)] eq_refl Hm)
    as (Ht & _ & Hf & _).
  exists self', m'. split; [reflexivity|]. split; [exact Ht|].
  rewrite Hf by (cbn; lia). reflexivity.
Defined.

(** ** n moves in a row *)

Lemma wrapped_on_board (p d : POINTER) : on_board (wrapped p d).
Proof.
  unfold on_board, wrapped, SCREEN_WIDTH, SCREEN_HEIGHT. cbn [fst snd].
  split; apply Z.mod_pos_bound; lia.
Qed.

Lemma advanced_S (n : nat) (p d : POINTER) :
  advanced n (wrapped p d) d = advanced (S n) p d.
Proof.
  unfold advanced, wrapped, SCREEN_WIDTH, SCREEN_HEIGHT, GRID_SIZE. cbn [fst snd].
  rewrite Nat2Z.inj_succ. f_equal.
  - rewrite Z.add_mod_idemp_l by lia.
    replace (p.1 + d.1 * 20 + 640 + Z.of_nat n * (d.1 * 20))
      with (p.1 + Z.succ (Z.of_nat n) * (d.1 * 20) + 1 * 640) by lia.
    apply Z.mod_add. lia.
  - rewrite Z.add_mod_idemp_l by lia.
    replace (p.2 + d.2 * 20 + 480 + Z.of_nat n * (d.2 * 20))
      with (p.2 + Z.succ (Z.of_nat n) * (d.2 * 20) + 1 * 480) by lia.
    apply Z.mod_add. lia.
Qed.

Lemma heading_move (self self' : Snake.t) (m m' : Mem) :
  Snake.move self m = Ok (self', m') ->
  heading self' = heading self /\ Snake.length self' = Snake.length self.
Proof.
  intros Hm. destruct (move_Ok_body _ _ _ Hm) as (h & t & Hb).
  rewrite (move_run _ _ _ _ Hb) in Hm. unfold heading.
  destruct (Z.of_nat _ >? _); injection Hm as <- _;
    destruct (Snake.next_direction self) eqn:Hn; cbn; rewrite ?Hn; auto.
Qed.

Lemma moves_head (n : nat) (self : Snake.t) (m : Mem) (h : POINTER) (t : list POINTER) :
  body self m = Some (h :: t) ->
  on_board h ->
  exists self' m' t',
    moves n self m = Ok (self', m') /\
    body self' m' = Some (advanced n h (heading self) :: t') /\
    heading self' = heading self /\
    Snake.length self' = Snake.length self.
Proof.
  revert self m h t. induction n as [|n IH]; intros self m h t Hb [Hx Hy].
  - exists self, m, t. split; [reflexivity|]. split; [|auto].
    unfold advanced. rewrite !Z.mul_0_l, !Z.add_0_r, !Z.mod_small by assumption.
    now destruct h.
  - destruct (move_effect self m h t Hb) as (s1 & m1 & Hm & _ & _ & Hbody).
    pose proof (heading_move _ _ _ _ Hm) as [Hh Hl].
    assert (Hb1 : exists t1, body s1 m1 = Some (wrapped h (heading self) :: t1))
      by (destruct (decide _); destruct Hbody as [Hbody _]; eauto).
    destruct Hb1 as [t1 Hb1].
    destruct (IH s1 m1 _ t1 Hb1 (wrapped_on_board _ _)) as (s' & m' & t' & Hms & Hb' & Hh' & Hl').
    exists s', m', t'. cbn [moves]. rewrite bind_run, Hm.
    split; [exact Hms|]. rewrite Hh, advanced_S in Hb'.
    split; [exact Hb'|]. split; congruence.
Qed.

(** X5.  [n] calls of [move] in a row, from a head [(x, y)] within the
    board, put the head at [((x + n*dx*GRID_SIZE) mod SCREEN_WIDTH,
    (y + n*dy*GRID_SIZE) mod SCREEN_HEIGHT)], where [(dx, dy)] is the pending
    direction if there is one and the committed one otherwise; [length] is
    unchanged. *)
Theorem moves_advance_head
    (n : nat) (self : Snake.t) (m : Mem) (h : POINTER) (t : list POINTER) :
  body self m = Some (h :: t) ->
  on_board h ->
  exists self' m' t',
    moves n self m = Ok (self', m') /\
    body self' m' = Some (advanced n h (heading self) :: t') /\
    Snake.get_head_position self' m' = Ok (advanced n h (heading self), m') /\
    Snake.length self' = Snake.length self.
Proof.
  intros Hb Hon.
  destruct (moves_head n self m h t Hb Hon) as (s' & m' & t' & Hm & Hb' & _ & Hl).
  exists s', m', t'. split; [exact Hm|]. split; [exact Hb'|].
  split; [now apply (get_head_position_run _ _ _ t')|exact Hl].
Qed.

Lemma moves_advance_head_witness :
  let self := Snake.mk SCREEN_CENTER SNAKE_COLOR 3 0%nat LEFT (Some UP) None in
  let m := mkMem [[(20, 40); (40, 40); (60, 40)]] [] in
  on_board (20, 40) /\
  exists self' m' t',
    moves 5 self m = Ok (self', m') /\
    body self' m' = Some ((20, 420) :: t').
Proof.
  intros self m.
  assert (Hon : on_board (20, 40)) by (vm_compute; intuition discriminate).
  split; [exact Hon|].
  destruct (moves_advance_head 5 self m (20, 40) [(40, 40); (60, 40)] eq_refl Hon)
    as (self' & m' & t' & Hm & Hb & _).
  exists self', m', t'. split; [exact Hm|exact Hb].
Defined.

(** X6.  A full lap brings the head back: from a head within the board,
    [GRID_WIDTH] moves to the left or right, or [GRID_HEIGHT] moves up or
    down, end with the head on the cell it started from. *)
Theorem full_lap_returns_head
    (self : Snake.t) (m : Mem) (h : POINTER) (t : list POINTER) :
  body self m = Some (h :: t) ->
  on_board h ->
  heading self ∈ directions ->
  let lap := if decide ((heading self).2 = 0) then GRID_WIDTH else GRID_HEIGHT in
  exists self' m' t',
    moves (Z.to_nat lap) self m = Ok (self', m') /\
    body self' m' = Some (h :: t').
Proof.
  intros Hb Hon Hd lap.
  destruct (moves_head (Z.to_nat lap) self m h t Hb Hon)
    as (s' & m' & t' & Hm & Hb' & _).
  exists s', m', t'. split; [exact Hm|]. rewrite Hb'. do 2 f_equal.
  destruct Hon as [Hx Hy]. destruct h as [x y]. cbn [fst snd] in *.
  unfold directions in Hd. rewrite !elem_of_cons in Hd.
  unfold SCREEN_WIDTH, SCREEN_HEIGHT in *.
  destruct Hd as [E|[E|[E|[E|E]]]]; [..|inversion E];
    subst lap; rewrite E; cbn [UP DOWN LEFT RIGHT snd];
    unfold advanced, GRID_WIDTH, GRID_HEIGHT, SCREEN_WIDTH, SCREEN_HEIGHT, GRID_SIZE;
    cbn [fst snd decide]; f_equal.
  all: try (rewrite Z.mul_0_r, Z.add_0_r; apply Z.mod_small; assumption).
  - match goal with |- (_ + ?k) mod ?n = _ => change k with ((-1) * n) end.
    rewrite Z.mod_add by lia. apply Z.mod_small; assumption.
  - match goal with |- (_ + ?k) mod ?n = _ => change k with (1 * n) end.
    rewrite Z.mod_add by lia. apply Z.mod_small; assumption.
  - match goal with |- (_ + ?k) mod ?n = _ => change k with ((-1) * n) end.
    rewrite Z.mod_add by lia. apply Z.mod_small; assumption.
  - match goal with |- (_ + ?k) mod ?n = _ => change k with (1 * n) end.
    rewrite Z.mod_add by lia. apply Z.mod_small; assumption.
Qed.

Lemma full_lap_returns_head_witness :
  let self := Snake.mk SCREEN_CENTER SNAKE_COLOR 1 0%nat DOWN None None in
  let m := mkMem [[(100, 460)]] [] in
  exists self' m' t',
    moves 24 self m = Ok (self', m') /\ body self' m' = Some ((100, 460) :: t').
Proof.
  intros self m.
  assert (Hon : on_board (100, 460)) by (vm_compute; intuition discriminate).
  assert (Hd : heading self ∈ directions) by (vm_compute; repeat constructor).
  exact (full_lap_returns_head self m (100, 460) [] eq_refl Hon Hd).
Defined.

(** ** Apple.randomize_position *)

Lemma randint_run (lo hi : Z) (m : Mem) :
  lo <= hi ->
  randint lo hi m =
    match tape m with
    | [] => Halt TapeExhausted
    | r :: t => Ok (lo + r mod (hi - lo + 1), mkMem (heap m) t)
    end.
Proof.
  intros Hle. unfold randint.
  destruct (Z.ltb_spec hi lo); [lia|].
  rewrite bind_run. unfold draw_raw. now destruct (tape m).
Qed.

Lemma randomize_rounds_short (fuel : nat) (a : Apple.t) (m : Mem) :
  (List.length (tape m) < 2)%nat ->
  Apple.randomize_rounds fuel a m = Halt TapeExhausted.
Proof.
  intros Hl. destruct fuel as [|fuel]; [reflexivity|].
  cbn [Apple.randomize_rounds].
  rewrite bind_run, randint_run by (vm_compute; discriminate).
  destruct (tape m) as [|r1 [|r2 t]] eqn:Ht; [reflexivity| |cbn in Hl; lia].
  rewrite bind_run, randint_run by (vm_compute; discriminate).
  reflexivity.
Qed.

Lemma randomize_rounds_unroll (fuel : nat) (a : Apple.t) (m : Mem)
      (r1 r2 : Z) (t : list Z) (occupied : list POINTER) :
  tape m = r1 :: r2 :: t ->
  heap m !! Apple.occupied_positions a = Some occupied ->
  Apple.randomize_rounds (S fuel) a m =
    if decide (drawn_cell r1 r2 ∈ occupied)
    then Apple.randomize_rounds fuel a (mkMem (heap m) t)
    else Ok (Apple.set_position (drawn_cell r1 r2) a, mkMem (heap m) t).
Proof.
  intros Ht Ho. cbn [Apple.randomize_rounds].
  rewrite bind_run, randint_run, Ht by (vm_compute; discriminate).
  rewrite bind_run, randint_run by (vm_compute; discriminate). cbn [tape heap].
  rewrite bind_run, (load_run _ _ occupied) by exact Ho.
  fold (drawn_cell r1 r2). now destruct (decide _).
Qed.

(** More fuel than half the tape is as good as any other such amount. *)
Lemma randomize_rounds_fuel (f1 f2 : nat) (a : Apple.t) (m : Mem)
      (occupied : list POINTER) :
  heap m !! Apple.occupied_positions a = Some occupied ->
  (List.length (tape m) < 2 * f1)%nat ->
  (List.length (tape m) < 2 * f2)%nat ->
  Apple.randomize_rounds f1 a m = Apple.randomize_rounds f2 a m.
Proof.
  revert f2 m. induction f1 as [|f1 IH]; intros f2 m Ho H1 H2; [lia|].
  destruct f2 as [|f2]; [lia|].
  destruct (tape m) as [|r1 [|r2 t]] eqn:Ht.
  - rewrite !randomize_rounds_short by (rewrite Ht; cbn; lia). reflexivity.
  - rewrite !randomize_rounds_short by (rewrite Ht; cbn; lia). reflexivity.
  - rewrite !(randomize_rounds_unroll _ _ _ _ _ _ _ Ht Ho).
    destruct (decide _); [|reflexivity].
    apply IH; cbn [heap tape List.length] in *; [exact Ho|lia|lia].
Qed.

Lemma randomize_position_unroll (a : Apple.t) (m : Mem)
      (r1 r2 : Z) (t : list Z) (occupied : list POINTER) :
  tape m = r1 :: r2 :: t ->
  heap m !! Apple.occupied_positions a = Some occupied ->
  Apple.randomize_position a m =
    if decide (drawn_cell r1 r2 ∈ occupied)
    then Apple.randomize_position a (mkMem (heap m) t)
    else Ok (Apple.set_position (drawn_cell r1 r2) a, mkMem (heap m) t).
Proof.
  intros Ht Ho. unfold Apple.randomize_position.
  rewrite (randomize_rounds_unroll _ _ _ _ _ _ _ Ht Ho).
  destruct (decide _); [|reflexivity].
  apply (randomize_rounds_fuel _ _ _ _ occupied); cbn [heap tape];
    [exact Ho| |]; rewrite ?Ht; cbn [List.length]; lia.
Qed.

(** X9.  When [randomize_position] returns, the apple is on a cell of the
    grid that is not in the list behind [occupied_positions]; its colour and
    its [occupied_positions] reference are unchanged, and no list object has
    been modified. *)
Theorem randomize_position_picks_free_cell (a a' : Apple.t) (m m' : Mem) :
  Apple.randomize_position a m = Ok (a', m') ->
  heap m' = heap m /\
  Apple.body_color a' = Apple.body_color a /\
  Apple.occupied_positions a' = Apple.occupied_positions a /\
  on_grid (Apple.position a') /\
  exists occupied,
    heap m !! Apple.occupied_positions a = Some occupied /\
    (Apple.position a' ∉ occupied).
Proof.
  intros H. apply randomize_position_Ok in H as (Hh & occ & Ho & Hset & Hnot & Hg).
  split; [exact Hh|]. rewrite Hset at 1 2.
  cbn [Apple.body_color Apple.occupied_positions Apple.set_position].
  do 3 (split; [auto|]). eauto.
Qed.

Lemma randomize_position_picks_free_cell_witness :
  let a := Apple.mk (340, 240) APPLE_COLOR 0%nat in
  let m := mkMem [[(340, 240); (320, 240)]] [16; 12; 17; 12; 3; 4; 9] in
  exists a' m',
    Apple.randomize_position a m = Ok (a', m') /\
    Apple.position a' = (60, 80) /\
    on_grid (Apple.position a') /\
    heap m' = heap m.
Proof.
  intros a m.
  destruct (Apple.randomize_position a m) as [[a' m']|] eqn:Hr;
    [|vm_compute in Hr; discriminate].
  destruct (randomize_position_picks_free_cell a a' m m' Hr) as (Hh & _ & _ & Hg & _).
  exists a', m'. split; [reflexivity|]. split; [|auto].
  vm_compute in Hr. now injection Hr as <- _.
Defined.

(** X10.  [randomize_position] takes the first drawn cell that is not
    occupied: when the tape starts with pairs of draws that all give occupied
    cells, followed by a pair that gives a free cell, the apple goes to that
    cell and exactly these draws are consumed. *)
Theorem randomize_position_first_free
    (a : Apple.t) (m : Mem) (occupied : list POINTER)
    (rejected : list (Z * Z)) (r1 r2 : Z) (t : list Z) :
  heap m !! Apple.occupied_positions a = Some occupied ->
  Forall (fun rr => drawn_cell rr.1 rr.2 ∈ occupied) rejected ->
  (drawn_cell r1 r2 ∉ occupied) ->
  tape m = flat_map (fun rr => [rr.1; rr.2]) rejected ++ r1 :: r2 :: t ->
  Apple.randomize_position a m =
    Ok (Apple.set_position (drawn_cell r1 r2) a, mkMem (heap m) t).
Proof.
  intros Ho Hrej Hfree. revert m Ho.
  induction Hrej as [|[q1 q2] rej Hq _ IH]; intros m Ho Ht; cbn in Ht.
  - rewrite (randomize_position_unroll _ _ _ _ _ _ Ht Ho).
    now rewrite decide_False.
  - rewrite (randomize_position_unroll _ _ _ _ _ _ Ht Ho).
    rewrite decide_True by exact Hq.
    now rewrite (IH (mkMem (heap m) _)).
Qed.

Lemma randomize_position_first_free_witness :
  let a := Apple.mk (340, 240) APPLE_COLOR 0%nat in
  let m := mkMem [[(340, 240); (320, 240)]] [16; 12; 17; 12; 3; 4; 9] in
  Apple.randomize_position a m
    = Ok (Apple.mk (60, 80) APPLE_COLOR 0%nat,
          mkMem [[(340, 240); (320, 240)]] [9]).
Proof.
  intros a m.
  apply (randomize_position_first_free a m [(340, 240); (320, 240)]
           [(16, 12); (17, 12)] 3 4 [9] eq_refl).
  - repeat constructor.
  - rewrite list_elem_of_In. vm_compute. intuition discriminate.
  - reflexivity.
Defined.

Lemma drawn_cell_in_all_cells (r1 r2 : Z) : drawn_cell r1 r2 ∈ all_cells.
Proof.
  unfold all_cells, drawn_cell.
  apply list_elem_of_bind. exists (0 + r1 mod (GRID_WIDTH - 1 - 0 + 1)).
  split; [|apply elem_of_seqZ; unfold GRID_WIDTH, SCREEN_WIDTH, GRID_SIZE;
           change (640 / 20) with 32;
           pose proof (Z.mod_pos_bound r1 (32 - 1 - 0 + 1)); lia].
  apply list_elem_of_bind. exists (0 + r2 mod (GRID_HEIGHT - 1 - 0 + 1)).
  split; [apply list_elem_of_here|].
  apply elem_of_seqZ. unfold GRID_HEIGHT, SCREEN_HEIGHT, GRID_SIZE.
  change (480 / 20) with 24.
  pose proof (Z.mod_pos_bound r2 (24 - 1 - 0 + 1)). lia.
Qed.

(** X11.  On a full board the loop of [randomize_position] never leaves:
    when every cell of the grid is in the occupied list, no tape of draws,
    however long, makes the call return. *)
Theorem randomize_position_full_board
    (a : Apple.t) (m : Mem) (occupied : list POINTER) :
  heap m !! Apple.occupied_positions a = Some occupied ->
  (forall c, c ∈ all_cells -> c ∈ occupied) ->
  Apple.randomize_position a m = Halt TapeExhausted.
Proof.
  intros Ho Hfull. unfold Apple.randomize_position.
  generalize (S (List.length (tape m))). intros fuel. revert m Ho.
  induction fuel as [|fuel IH]; intros m Ho; [reflexivity|].
  destruct (tape m) as [|r1 [|r2 t]] eqn:Ht;
    try (apply randomize_rounds_short; rewrite Ht; cbn; lia).
  rewrite (randomize_rounds_unroll _ _ _ _ _ _ _ Ht Ho).
  rewrite decide_True by apply Hfull, drawn_cell_in_all_cells.
  now apply IH.
Qed.

Lemma randomize_position_full_board_witness :
  Apple.randomize_position (Apple.mk (0, 0) APPLE_COLOR 0%nat)
                           (mkMem [all_cells] [5; 7; 31; 23; 0; 0])
    = Halt TapeExhausted.
Proof.
  apply (randomize_position_full_board (Apple.mk (0, 0) APPLE_COLOR 0%nat)
           (mkMem [all_cells] [5; 7; 31; 23; 0; 0]) all_cells eq_refl).
  intros c Hc. exact Hc.
Defined.

(** ** Geometry of one step *)

Lemma wrapped_on_grid (p d : POINTER) : on_grid p -> on_grid (wrapped p d).
Proof.
  destruct p as [x y], d as [dx dy].
  unfold on_grid, wrapped, SCREEN_WIDTH, SCREEN_HEIGHT, GRID_SIZE. cbn [fst snd].
  intros [[Hx Hxm] [Hy Hym]].
  pose proof (Z.mod_pos_bound (x + dx * 20 + 640) 640).
  pose proof (Z.mod_pos_bound (y + dy * 20 + 480) 480).
  repeat split; try lia.
  - rewrite Z.mod_mod_divide by (now exists 32).
    rewrite <- Z.add_assoc, Z.add_mod, Hxm by lia.
    replace (dx * 20 + 640) with ((dx + 32) * 20) by lia.
    now rewrite Z.mod_mul by lia.
  - rewrite Z.mod_mod_divide by (now exists 24).
    rewrite <- Z.add_assoc, Z.add_mod, Hym by lia.
    replace (dy * 20 + 480) with ((dy + 24) * 20) by lia.
    now rewrite Z.mod_mul by lia.
Qed.

Lemma directions_cases (d : POINTER) :
  d ∈ directions -> d = UP \/ d = DOWN \/ d = LEFT \/ d = RIGHT.
Proof.
  unfold directions. rewrite !elem_of_cons.
  intros [H|[H|[H|[H|H]]]]; try (inversion H; fail); auto 6.
Qed.

(** A step changes the colour of the cell: the board has an even number of
    columns and of rows. *)
Lemma parity_wrapped (p d : POINTER) :
  on_grid p -> d ∈ directions -> parity (wrapped p d) = 1 - parity p.
Proof.
  intros [[Hx Hxm] [Hy Hym]] Hd. destruct p as [x y].
  unfold parity, wrapped, SCREEN_WIDTH, SCREEN_HEIGHT, GRID_SIZE in *.
  cbn [fst snd] in *.
  destruct (directions_cases d Hd) as [E|[E|[E|E]]]; subst d;
    cbn [UP DOWN LEFT RIGHT fst snd]; Z.div_mod_to_equations; lia.
Qed.

Lemma parity_range (p : POINTER) : parity p = 0 \/ parity p = 1.
Proof.
  unfold parity. pose proof (Z.mod_pos_bound (p.1 / GRID_SIZE + p.2 / GRID_SIZE) 2). lia.
Qed.

(** Two steps bring the snake back only if the second undoes the first. *)
Lemma two_steps_away (p d d' : POINTER) :
  on_grid p -> d ∈ directions -> d' ∈ directions -> d' <> opposite d ->
  wrapped (wrapped p d) d' <> p.
Proof.
  intros [[Hx Hxm] [Hy Hym]] Hd Hd' Hopp E. destruct p as [x y].
  unfold wrapped, SCREEN_WIDTH, SCREEN_HEIGHT, GRID_SIZE in *.
  cbn [fst snd] in *.
  destruct (directions_cases d Hd) as [E0|[E0|[E0|E0]]]; subst d;
    destruct (directions_cases d' Hd') as [E0|[E0|[E0|E0]]]; subst d';
    try (exfalso; apply Hopp; reflexivity);
    cbn [UP DOWN LEFT RIGHT fst snd] in E; injection E as E1 E2;
    Z.div_mod_to_equations; lia.
Qed.

(** ** Lists without their last element *)

Lemma removelast_snoc {A} (l : list A) :
  l <> [] -> exists x, l = removelast l ++ [x].
Proof.
  intros Hne. destruct l as [|y l]; [congruence|].
  exists (List.last (y :: l) y). now apply app_removelast_last.
Qed.

Lemma lookup_removelast {A} (l : list A) (i : nat) (x : A) :
  removelast l !! i = Some x -> l !! i = Some x.
Proof.
  destruct l as [|y l]; [discriminate|].
  destruct (removelast_snoc (y :: l)) as [z Hz]; [discriminate|].
  intros H. rewrite Hz. now apply lookup_app_l_Some.
Qed.

Lemma NoDup_removelast {A} (l : list A) : NoDup l -> NoDup (removelast l).
Proof.
  destruct l as [|y l]; [auto|].
  destruct (removelast_snoc (y :: l)) as [z Hz]; [discriminate|].
  rewrite Hz at 1. rewrite NoDup_app. tauto.
Qed.

Lemma Forall_removelast {A} (P : A -> Prop) (l : list A) :
  Forall P l -> Forall P (removelast l).
Proof.
  destruct l as [|y l]; [auto|].
  destruct (removelast_snoc (y :: l)) as [z Hz]; [discriminate|].
  rewrite Hz at 1. rewrite Forall_app. tauto.
Qed.

(** ** The snake cannot bite a short body *)

(** A head that has just stepped, without turning back, onto a cell of the
    body behind it has at least four cells behind it. *)
Lemma no_bite_short (a0 : POINTER) (rest : list POINTER) (d1 d : POINTER) :
  Forall on_grid (a0 :: rest) ->
  linked (a0 :: rest) ->
  head_follows d1 (a0 :: rest) ->
  head_follows d rest ->
  d1 ∈ directions -> d ∈ directions -> d1 <> opposite d ->
  a0 ∈ rest ->
  (4 <= List.length rest)%nat.
Proof.
  intros Hg Hl Hf1 Hf Hd1 Hd Hopp Hin.
  destruct rest as [|a1 [|a2 [|a3 [|a4 rest]]]]; cbn [List.length]; try lia; exfalso.
  - inversion Hin.
  - (* the head is on the cell it has just left *)
    apply list_elem_of_singleton in Hin. subst a1.
    pose proof (Hf1 a0 a0 eq_refl eq_refl) as E.
    apply Forall_cons in Hg as [Hg0 _].
    pose proof (parity_wrapped a0 d1 Hg0 Hd1) as Hp. rewrite <- E in Hp.
    destruct (parity_range a0); lia.
  - rewrite !elem_of_cons in Hin. destruct Hin as [E|[E|E]]; [| |inversion E].
    + subst a1. pose proof (Hf1 a0 a0 eq_refl eq_refl) as E.
      apply Forall_cons in Hg as [Hg0 _].
      pose proof (parity_wrapped a0 d1 Hg0 Hd1) as Hp. rewrite <- E in Hp.
      destruct (parity_range a0); lia.
    + subst a2. pose proof (Hf1 a0 a1 eq_refl eq_refl) as E1.
      pose proof (Hf a1 a0 eq_refl eq_refl) as E2.
      apply Forall_cons in Hg as [Hg0 _].
      apply (two_steps_away a0 d d1 Hg0 Hd Hd1 Hopp). congruence.
  - rewrite !elem_of_cons in Hin. destruct Hin as [E|[E|[E|E]]]; [| | |inversion E].
    + subst a1. pose proof (Hf1 a0 a0 eq_refl eq_refl) as E.
      apply Forall_cons in Hg as [Hg0 _].
      pose proof (parity_wrapped a0 d1 Hg0 Hd1) as Hp. rewrite <- E in Hp.
      destruct (parity_range a0); lia.
    + subst a2. pose proof (Hf1 a0 a1 eq_refl eq_refl) as E1.
      pose proof (Hf a1 a0 eq_refl eq_refl) as E2.
      apply Forall_cons in Hg as [Hg0 _].
      apply (two_steps_away a0 d d1 Hg0 Hd Hd1 Hopp). congruence.
    + (* three steps change the colour of the cell *)
      subst a3.
      apply Forall_cons in Hg as [Hg0 Hg]. apply Forall_cons in Hg as [Hg1 Hg].
      apply Forall_cons in Hg as [Hg2 _].
      destruct (Hl 0%nat a0 a1 eq_refl eq_refl) as (e0 & He0 & E0).
      destruct (Hl 1%nat a1 a2 eq_refl eq_refl) as (e1 & He1 & E1).
      destruct (Hl 2%nat a2 a0 eq_refl eq_refl) as (e2 & He2 & E2).
      pose proof (parity_wrapped a1 e0 Hg1 He0) as P0. rewrite <- E0 in P0.
      pose proof (parity_wrapped a2 e1 Hg2 He1) as P1. rewrite <- E1 in P1.
      pose proof (parity_wrapped a0 e2 Hg0 He2) as P2. rewrite <- E2 in P2.
      destruct (parity_range a0); lia.
Qed.

(** ** One pass, in full *)

(** The direction the snake travels in on a pass that starts with nothing
    pending: the last accepted request, else the committed direction. *)
Lemma tick_move_full (events : list Event) (st st1 : Locals) (m m1 : Mem) :
  tick_move events st m = Ok (st1, m1) ->
  Snake.next_direction (snake st) = None ->
  let d := Snake.direction (snake st) in
  let d1 := default d (last (accepted d (requests events))) in
  exists h t,
    body (snake st) m = Some (h :: t) /\
    Snake.direction (snake st1) = d1 /\
    Snake.next_direction (snake st1) = None /\
    body (snake st1) m1 =
      Some (if decide (Z.of_nat (List.length (wrapped h d1 :: h :: t))
                       > Snake.length (snake st))
            then wrapped h d1 :: removelast (h :: t)
            else wrapped h d1 :: h :: t) /\
    List.length (heap m1) = List.length (heap m) /\
    (forall r, r <> Snake.positions (snake st) -> heap m1 !! r = heap m !! r) /\
    (MIN_SPEED <= speed st <= MAX_SPEED -> MIN_SPEED <= speed st1 <= MAX_SPEED).
Proof.
  intros Ht Hn d d1. unfold tick_move in Ht. rewrite bind_Ok in Ht.
  destruct Ht as ([snake' speed'] & m0 & Hk & H).
  pose proof (handle_keys_speed _ _ _ _ _ _ _ Hk) as Hsp.
  apply handle_keys_Ok in Hk as [-> ->].
  rewrite bind_Ok in H. destruct H as (snake1 & m1' & Hm & H).
  rewrite ret_run in H. injection H as <- <-. cbn [snake speed].
  remember (Snake.update_direction _) as s0 eqn:Es0.
  assert (Hs0 : Snake.positions s0 = Snake.positions (snake st) /\
                Snake.length s0 = Snake.length (snake st) /\
                Snake.direction s0 = d1 /\
                Snake.next_direction s0 = None).
  { rewrite Es0. subst d1 d. rewrite Hn. unfold Snake.update_direction.
    destruct (snake st) as [p c n r d0 nd l]. cbn.
    destruct (last (accepted d0 (requests events))); cbn; auto. }
  destruct Hs0 as (Hpos & Hlen & Hdir & Hnone).
  destruct (move_Ok_body _ _ _ Hm) as (h & t & Hb0).
  pose proof (move_run _ _ _ _ Hb0) as H1. rewrite Hm in H1.
  pose proof (move_frame _ _ _ _ _ Hb0 Hm) as (_ & Hl & Hframe & _).
  assert (Hhead : heading s0 = d1) by (unfold heading; now rewrite Hnone).
  cbv zeta in H1. rewrite Hnone, Hhead, Hlen, Hpos in H1. rewrite Hpos in Hframe.
  assert (Hb : heap m !! Snake.positions (snake st) = Some (h :: t))
    by (unfold body in Hb0; now rewrite <- Hpos).
  exists h, t. split; [exact Hb|].
  assert (Hgoal : Snake.direction snake1 = d1 /\ Snake.next_direction snake1 = None /\
                  body snake1 m1' =
                    Some (if decide (Z.of_nat (List.length (wrapped h d1 :: h :: t))
                                     > Snake.length (snake st))
                          then wrapped h d1 :: removelast (h :: t)
                          else wrapped h d1 :: h :: t)).
  { unfold body.
    destruct (Z.gtb_spec (Z.of_nat (List.length (wrapped h d1 :: h :: t)))
                         (Snake.length (snake st))) as [Hgt|Hle];
      injection H1 as -> ->;
      cbn [Snake.direction Snake.next_direction Snake.positions Snake.set_last heap].
    - rewrite decide_True by lia. rewrite Hpos.
      repeat split; auto. eapply lookup_store_same, Hb.
    - rewrite decide_False by lia. rewrite Hpos.
      repeat split; auto. eapply lookup_store_same, Hb. }
  destruct Hgoal as (G1 & G2 & G3).
  do 5 (split; [assumption|]). intros Hin. apply (Hsp Hin).
Qed.

Lemma requests_directions (events : list Event) (r : POINTER) :
  r ∈ requests events -> r ∈ directions.
Proof.
  unfold requests. rewrite list_elem_of_omap. intros (e & _ & He).
  destruct e as [|[]|]; try discriminate; injection He as <-;
    unfold directions; repeat constructor.
Qed.

(** The direction of the next step is one of the four and never the opposite
    of the committed one. *)
Lemma next_heading (d : POINTER) (events : list Event) :
  d ∈ directions ->
  default d (last (accepted d (requests events))) ∈ directions /\
  default d (last (accepted d (requests events))) <> opposite d.
Proof.
  intros Hd. destruct (last (accepted d (requests events))) as [r|] eqn:Hl; cbn.
  - apply last_Some_elem_of in Hl. unfold accepted in Hl.
    apply list_elem_of_filter in Hl as [Hne Hin].
    split; [eapply requests_directions, Hin|exact Hne].
  - split; [exact Hd|].
    destruct (directions_cases d Hd) as [E|[E|[E|E]]]; rewrite E; discriminate.
Qed.

Lemma on_grid_center : on_grid SCREEN_CENTER.
Proof. vm_compute. intuition discriminate. Qed.

Lemma tick_move_mid (events : list Event) (st st1 : Locals) (m m1 : Mem) :
  main_inv st m ->
  tick_move events st m = Ok (st1, m1) ->
  mid_inv (Snake.direction (snake st)) 0 st1 m1.
Proof.
  intros ((ps & Hb & Hne & Hnd & Hgrid & Hlink & Hfol & Hlen & Hfood)
          & Hnone & Hdir & Happle & Hocc & Hspeed & Hrec) Hm.
  pose proof (tick_move_full _ _ _ _ _ Hm Hnone)
    as (h & t & Hb' & Hd1 & Hn1 & Hb1 & Hhl & Hframe & Hsp).
  pose proof (tick_move_length _ _ _ _ _ _ Hb Hlen Hm) as (ps1 & Hb1' & Hl1).
  pose proof (tick_move_Ok _ _ _ _ _ Hm) as (_ & _ & _ & _ & Ha1 & Hr1 & Hlen1 & Hp1 & _).
  unfold body in Hb, Hb'. rewrite Hb in Hb'. injection Hb' as ->.
  destruct (next_heading _ events Hdir) as [Hd1in Hd1opp].
  set (d := Snake.direction (snake st)) in *.
  set (d1 := default d (last (accepted d (requests events)))) in *.
  (* the cells kept from the old body *)
  assert (Hq : exists q,
             body (snake st1) m1 = Some (wrapped h d1 :: q) /\
             (forall i x, q !! i = Some x -> (h :: t) !! i = Some x) /\
             NoDup q /\ Forall on_grid q /\ (forall x, x ∈ q -> x ∈ h :: t)).
  { destruct (decide _).
    - exists (removelast (h :: t)). split; [exact Hb1|].
      split; [apply lookup_removelast|].
      split; [now apply NoDup_removelast|].
      split; [now apply Forall_removelast|].
      intros x Hx. apply (elem_of_removelast x (h :: t)). exact Hx.
    - exists (h :: t). auto. }
  destruct Hq as (q & Hbq & Hpre & Hndq & Hgq & Hinq).
  rewrite Hbq in Hb1'. injection Hb1' as <-.
  apply Forall_cons in Hgrid as Hgh. destruct Hgh as [Hgh _].
  split; [exists (wrapped h d1), q|].
  - split; [exact Hbq|]. split; [exact Hndq|].
    split; [apply Forall_cons; split; [now apply wrapped_on_grid|exact Hgq]|].
    split.
    { intros i a b Ha Hb2. destruct i as [|i].
      - injection Ha as <-. apply Hpre in Hb2. injection Hb2 as <-. eauto.
      - apply (Hlink i a b); apply Hpre; assumption. }
    split.
    { rewrite Hd1. intros a b Ha Hb2. injection Ha as <-.
      apply Hpre in Hb2. now injection Hb2 as <-. }
    split.
    { intros a b Ha Hb2. apply (Hfol a b); apply Hpre; assumption. }
    split; [lia|].
    rewrite Ha1, Hp1. intros Halias Hin. apply (Hfood Halias), Hinq, Hin.
  - rewrite Hd1, Hn1, Ha1, Hr1, Hlen1.
    do 5 (split; [auto|]).
    split; [|split; [auto|exact Hrec]].
    destruct (decide (Apple.occupied_positions (apple st) = Snake.positions (snake st)))
      as [E|E].
    + rewrite E, <- Hp1. unfold body in Hbq. rewrite Hbq. eauto.
    + rewrite Hframe by exact E. exact Hocc.
Qed.

Lemma tick_eat_mid (d : POINTER) (st1 st2 : Locals) (m1 m2 : Mem) :
  mid_inv d 0 st1 m1 ->
  tick_eat st1 m1 = Ok (st2, m2) ->
  exists grown,
    (grown = 0 \/ grown = 1) /\
    mid_inv d grown st2 m2 /\
    body (snake st2) m2 = body (snake st1) m1 /\
    (forall ps, body (snake st2) m2 = Some ps ->
                Apple.occupied_positions (apple st2) = Snake.positions (snake st2) ->
                Apple.position (apple st2) ∉ ps).
Proof.
  intros ((a0 & rest & Hb & Hnd & Hgrid & Hlink & Hf1 & Hf & Hlen & Hfood)
          & Hd & Hdir & Hopp & Hnone & Happle & Hocc & Hspeed & Hrec) He.
  apply tick_eat_Ok in He as (h & t & Hb' & Hh & Hsp & He).
  rewrite Hb in Hb'. injection Hb' as <- <-.
  destruct (decide (a0 = Apple.position (apple st1))) as [Heq|Hne].
  - destruct He as (Hs & Hr & Hrand).
    apply randomize_position_Ok in Hrand as (_ & occ & Ho & Hset & Hnot & Hg).
    assert (Hb2 : body (snake st2) m2 = Some (a0 :: rest))
      by (unfold body in *; rewrite Hs; cbn [Snake.positions Snake.set_length];
          now rewrite Hh).
    exists 1. split; [auto|]. split; [|split].
    + split; [exists a0, rest|].
      * split; [exact Hb2|]. rewrite Hs. rewrite Hset at 1.
        cbn [Snake.direction Snake.length Snake.positions Snake.set_length
             Apple.occupied_positions Apple.set_position].
        do 5 (split; [assumption|]). split; [lia|].
        intros Halias Hin. rewrite Halias in Ho. unfold body in Hb.
        rewrite Hb in Ho. injection Ho as <-.
        apply Hnot, list_elem_of_further, Hin.
      * rewrite Hs, Hset, Hh, Hsp, Hr.
        cbn [Snake.direction Snake.length Snake.next_direction Snake.set_length
             Apple.occupied_positions Apple.set_position].
        do 7 (split; [assumption|]). lia.
    + now rewrite Hb2.
    + intros ps Hps Halias. rewrite Hb2 in Hps. injection Hps as <-.
      rewrite Hset, Hs in Halias.
      cbn [Snake.positions Snake.set_length Apple.occupied_positions
           Apple.set_position] in Halias.
      rewrite Halias in Ho. unfold body in Hb. rewrite Hb in Ho.
      now injection Ho as <-.
  - destruct He as [-> ->]. exists 0. split; [auto|]. split; [|split].
    + split; [exists a0, rest; auto 10|auto 10].
    + reflexivity.
    + intros ps Hps Halias. rewrite Hb in Hps. injection Hps as <-.
      rewrite elem_of_cons. intros [E|E]; [congruence|].
      exact (Hfood Halias E).
Qed.

Lemma reset_Ok_full (self self' : Snake.t) (m m' : Mem) :
  Snake.reset self m = Ok (self', m') ->
  Snake.length self' = 1 /\
  body self' m' = Some [SCREEN_CENTER] /\
  Snake.direction self' ∈ directions /\
  Snake.next_direction self' = None /\
  Snake.positions self' = List.length (heap m) /\
  heap m' = heap m ++ [[SCREEN_CENTER]].
Proof.
  intros Hr. pose proof Hr as Hr'. rewrite reset_run in Hr'.
  destruct (tape m) as [|r t] eqn:Ht; [discriminate|].
  destruct (reset_establishes self m r t Ht)
    as (s & m1 & Hr1 & Hl & Hb & Hd & Hn & _ & Hp & Hh & _).
  rewrite Hr in Hr1. injection Hr1 as <- <-. auto 10.
Qed.

Lemma tick_collide_main (d : POINTER) (grown : Z) (st2 st' : Locals) (m2 m' : Mem) :
  grown = 0 \/ grown = 1 ->
  mid_inv d grown st2 m2 ->
  (forall ps, body (snake st2) m2 = Some ps ->
              Apple.occupied_positions (apple st2) = Snake.positions (snake st2) ->
              Apple.position (apple st2) ∉ ps) ->
  tick_collide st2 m2 = Ok (st', m') ->
  main_inv st' m'.
Proof.
  intros Hgr ((a0 & rest & Hb & Hnd & Hgrid & Hlink & Hf1 & Hf & Hlen & _)
              & Hd & Hdir & Hopp & Hnone & Happle & Hocc & Hspeed & Hrec) Hfood Hc.
  apply tick_collide_Ok in Hc as (h & t & Hb' & _ & Hr & Hsp & Hc).
  rewrite Hb in Hb'. injection Hb' as <- <-.
  destruct (decide (a0 ∈ rest)) as [Hin|Hout].
  - destruct Hc as (mr & Hreset & Hrand).
    apply reset_Ok_full in Hreset as (Hl & Hbr & Hdr & Hnr & Hpr & Hhr).
    apply randomize_position_Ok in Hrand as (Hh & occ & Ho & Hset & Hnot & Hg).
    split; [exists [SCREEN_CENTER]|].
    + split; [unfold body in *; now rewrite Hh|].
      split; [discriminate|]. split; [repeat constructor; inversion 1|].
      split; [repeat constructor; apply on_grid_center|].
      split; [intros i a b _ Hb2; destruct i; discriminate|].
      split; [intros a b _ Hb2; discriminate|].
      split; [left; rewrite Hl; reflexivity|].
      rewrite Hset. cbn [Apple.occupied_positions Apple.set_position].
      intros Halias. exfalso. destruct Hocc as [l Hl'].
      apply lookup_lt_Some in Hl'. lia.
    + rewrite Hset at 2. cbn [Apple.occupied_positions Apple.set_position].
      rewrite Hh, Hhr, Hsp, Hr, Hl.
      do 3 (split; [assumption|]).
      split; [destruct Hocc as [l Hl']; exists l; now apply lookup_app_l_Some|].
      split; [assumption|lia].
  - destruct Hc as [-> ->]. split; [exists (a0 :: rest)|auto 10].
    split; [exact Hb|]. split; [discriminate|].
    split; [apply NoDup_cons; auto|].
    do 3 (split; [assumption|]).
    split; [destruct Hgr; subst grown; lia|].
    intros Halias. exact (Hfood _ Hb Halias).
Qed.

(** The invariant of [main] is kept by a pass of the loop. *)
Lemma tick_main_inv (events : list Event) (st st' : Locals) (m m' : Mem) :
  main_inv st m -> tick events st m = Ok (st', m') -> main_inv st' m'.
Proof.
  intros Hinv Ht.
  apply tick_Ok in Ht as (st1 & m1 & st2 & m2 & H1 & H2 & H3).
  pose proof (tick_move_mid _ _ _ _ _ Hinv H1) as Hmid.
  destruct (tick_eat_mid _ _ _ _ _ Hmid H2) as (grown & Hgr & Hmid2 & _ & Hfood).
  exact (tick_collide_main _ _ _ _ _ _ Hgr Hmid2 Hfood H3).
Qed.

(** It holds when the loop is entered. *)
Lemma main_setup_inv (m m' : Mem) (st : Locals) :
  main_setup m = Ok (st, m') -> main_inv st m'.
Proof.
  intros Hs. pose proof (main_setup_Ok _ _ _ Hs) as (Hl & Hr & Hb & Halias & Hoff).
  unfold main_setup in Hs. rewrite bind_Ok in Hs. destruct Hs as (s & m1 & Hi & H).
  rewrite bind_Ok in H. destruct H as (a & m2 & Ha & H).
  rewrite ret_run in H. injection H as <- <-.
  cbn [snake apple record_length speed] in *.
  rewrite init_run in Hi. destruct (tape m) as [|r t]; [discriminate|].
  injection Hi as <- <-.
  unfold Apple.init in Ha. rewrite bind_run, ret_run in Ha.
  apply randomize_position_Ok in Ha as (Hh & occ & Ho & Hset & Hnot & Hg).
  split; [exists [SCREEN_CENTER]|].
  - split; [exact Hb|]. split; [discriminate|].
    split; [repeat constructor; inversion 1|].
    split; [repeat constructor; apply on_grid_center|].
    split; [intros i x y _ Hy; destruct i; discriminate|].
    split; [intros x y _ Hy; discriminate|].
    split; [left; reflexivity|]. intros _. exact Hoff.
  - cbn [Snake.next_direction Snake.direction Snake.length].
    split; [reflexivity|]. split; [apply choice_directions_elem|].
    split; [exact Hg|].
    split; [rewrite Hset, Hh; cbn [Apple.occupied_positions Apple.set_position] in *;
            eauto|].
    cbn [snake speed record_length Snake.length].
    unfold MIN_SPEED, MAX_SPEED, INITIAL_SPEED. lia.
Qed.

Lemma main_loop_inv (inputs : list (list Event)) (st st' : Locals) (m m' : Mem) :
  main_inv st m -> main_loop inputs st m = Ok (st', m') -> main_inv st' m'.
Proof.
  revert st m. induction inputs as [|events rest IH]; intros st m Hinv.
  - cbn [main_loop]. rewrite ret_run. now intros [= <- <-].
  - cbn [main_loop]. rewrite bind_Ok. intros (st1 & m1 & Ht & H).
    eapply IH; [|exact H]. eapply tick_main_inv; eauto.
Qed.

Lemma main_inv_holds (inputs : list (list Event)) (m0 m : Mem) (st : Locals) :
  main inputs m0 = Ok (st, m) -> main_inv st m.
Proof.
  unfold main. rewrite bind_Ok. intros (st0 & m1 & Hs & Hl).
  eapply main_loop_inv; [|exact Hl]. eapply main_setup_inv, Hs.
Qed.

(** ** Snake.draw *)




(** ** Invariants of the loop of main *)

(** X13.  After any number of passes of [main], the body of the snake is a
    non-empty list of cells of the grid without repetition, each cell one
    step (with wrap-around) from the next, and the apple is on a cell of the
    grid. *)
Theorem main_keeps_body_well_formed
    (inputs : list (list Event)) (m0 m : Mem) (st : Locals) :
  main inputs m0 = Ok (st, m) ->
  on_grid (Apple.position (apple st)) /\
  exists ps,
    body (snake st) m = Some ps /\
    ps <> [] /\
    NoDup ps /\
    Forall on_grid ps /\
    linked ps.
Proof.
  intros Hm. apply main_inv_holds in Hm
    as ((ps & Hb & Hne & Hnd & Hg & Hl & _) & _ & _ & Ha & _).
  split; [exact Ha|]. exists ps. auto.
Qed.

Lemma main_keeps_body_well_formed_witness :
  exists st m ps,
    main (take 6 tight_loop_inputs) (mkMem [] tight_loop_tape) = Ok (st, m) /\
    body (snake st) m = Some ps /\
    List.length ps = 5%nat /\
    NoDup ps /\
    Forall on_grid ps.
Proof.
  destruct (main (take 6 tight_loop_inputs) (mkMem [] tight_loop_tape))
    as [[st m]|] eqn:Hm; [|vm_compute in Hm; discriminate].
  destruct (main_keeps_body_well_formed _ _ _ _ Hm)
    as (_ & ps & Hb & _ & Hnd & Hg & _).
  exists st, m, ps. split; [reflexivity|]. split; [exact Hb|].
  split; [|auto].
  vm_compute in Hm. injection Hm as <- <-.
  vm_compute in Hb. now injection Hb as <-.
Defined.

(** X14.  After any number of passes of [main], the speed is within
    [MIN_SPEED, MAX_SPEED], the direction of the snake is one of the four
    unit directions, and no direction is pending. *)
Theorem main_keeps_controls_valid
    (inputs : list (list Event)) (m0 m : Mem) (st : Locals) :
  main inputs m0 = Ok (st, m) ->
  MIN_SPEED <= speed st <= MAX_SPEED /\
  Snake.direction (snake st) ∈ directions /\
  Snake.next_direction (snake st) = None.
Proof.
  intros Hm. apply main_inv_holds in Hm as (_ & Hn & Hd & _ & _ & Hs & _). auto.
Qed.

Lemma main_keeps_controls_valid_witness :
  let inputs := [[KEYDOWN K_PLUS; KEYDOWN K_UP]; [KEYDOWN K_DOWN; KEYDOWN K_EQUALS]] in
  exists st m,
    main inputs (mkMem [] [3; 0; 0]) = Ok (st, m) /\
    speed st = 12 /\
    MIN_SPEED <= speed st <= MAX_SPEED /\
    Snake.direction (snake st) = UP /\
    Snake.next_direction (snake st) = None.
Proof.
  intros inputs.
  destruct (main inputs (mkMem [] [3; 0; 0])) as [[st m]|] eqn:Hm;
    [|vm_compute in Hm; discriminate].
  destruct (main_keeps_controls_valid _ _ _ _ Hm) as (Hs & _ & Hn).
  exists st, m. split; [reflexivity|].
  split; [|split; [exact Hs|split; [|exact Hn]]];
    vm_compute in Hm; injection Hm as <- <-; reflexivity.
Defined.

(** X15.  After any number of passes of [main], [1 <= snake.length <=
    record_length], and the body has [length] cells or one cell less. *)
Theorem main_keeps_lengths
    (inputs : list (list Event)) (m0 m : Mem) (st : Locals) :
  main inputs m0 = Ok (st, m) ->
  1 <= Snake.length (snake st) <= record_length st /\
  exists ps,
    body (snake st) m = Some ps /\
    (Z.of_nat (List.length ps) = Snake.length (snake st) \/
     Z.of_nat (List.length ps) + 1 = Snake.length (snake st)).
Proof.
  intros Hm. apply main_inv_holds in Hm
    as ((ps & Hb & _ & _ & _ & _ & _ & Hl & _) & _ & _ & _ & _ & _ & Hr).
  split; [exact Hr|]. exists ps. auto.
Qed.

Lemma main_keeps_lengths_witness :
  exists st m,
    main (take 4 tight_loop_inputs) (mkMem [] tight_loop_tape) = Ok (st, m) /\
    Snake.length (snake st) = 5 /\
    body (snake st) m = Some [(400, 240); (380, 240); (360, 240); (340, 240)] /\
    1 <= Snake.length (snake st) <= record_length st.
Proof.
  destruct (main (take 4 tight_loop_inputs) (mkMem [] tight_loop_tape))
    as [[st m]|] eqn:Hm; [|vm_compute in Hm; discriminate].
  destruct (main_keeps_lengths _ _ _ _ Hm) as (Hr & _).
  exists st, m. split; [reflexivity|].
  split; [|split; [|exact Hr]];
    vm_compute in Hm; injection Hm as <- <-; reflexivity.
Defined.

(** X16.  As long as the apple still refers to the list object that is the
    snake's body, that is until the first reset, the apple is never on a
    cell of the snake at the end of a pass of [main]. *)
Theorem main_keeps_food_off_body_until_reset
    (inputs : list (list Event)) (m0 m : Mem) (st : Locals) (ps : list POINTER) :
  main inputs m0 = Ok (st, m) ->
  Apple.occupied_positions (apple st) = Snake.positions (snake st) ->
  body (snake st) m = Some ps ->
  Apple.position (apple st) ∉ ps.
Proof.
  intros Hm Halias Hb. apply main_inv_holds in Hm
    as ((ps' & Hb' & _ & _ & _ & _ & _ & _ & Hfood) & _).
  rewrite Hb in Hb'. injection Hb' as <-. exact (Hfood Halias).
Qed.

Lemma main_keeps_food_off_body_until_reset_witness :
  exists st m ps,
    main (take 6 tight_loop_inputs) (mkMem [] tight_loop_tape) = Ok (st, m) /\
    Apple.occupied_positions (apple st) = Snake.positions (snake st) /\
    body (snake st) m = Some ps /\
    (Apple.position (apple st) ∉ ps).
Proof.
  destruct (main (take 6 tight_loop_inputs) (mkMem [] tight_loop_tape))
    as [[st m]|] eqn:Hm; [|vm_compute in Hm; discriminate].
  destruct (body (snake st) m) as [ps|] eqn:Hb;
    [|vm_compute in Hm; injection Hm as <- <-; discriminate].
  assert (Ha : Apple.occupied_positions (apple st) = Snake.positions (snake st))
    by (vm_compute in Hm; injection Hm as <- <-; reflexivity).
  exists st, m, ps. split; [reflexivity|]. split; [exact Ha|].
  split; [exact Hb|].
  exact (main_keeps_food_off_body_until_reset _ _ _ _ _ Hm Ha Hb).
Defined.

(** ** Turning and biting *)

(** X17.  On a pass that starts with nothing pending and the snake heading
    in one of the four directions, the direction after the move is again one
    of the four and is never the opposite of the direction before, whatever
    keys were pressed: it is the last request that was not a reversal, or
    the old direction when there was none; and nothing is pending
    afterwards. *)
Theorem no_reversal_in_a_pass
    (events : list Event) (st st1 : Locals) (m m1 : Mem) :
  Snake.next_direction (snake st) = None ->
  Snake.direction (snake st) ∈ directions ->
  tick_move events st m = Ok (st1, m1) ->
  Snake.direction (snake st1) ∈ directions /\
  Snake.direction (snake st1) <> opposite (Snake.direction (snake st)) /\
  Snake.direction (snake st1) =
    default (Snake.direction (snake st))
            (last (accepted (Snake.direction (snake st)) (requests events))) /\
  Snake.next_direction (snake st1) = None.
Proof.
  intros Hn Hd Hm.
  pose proof (tick_move_full _ _ _ _ _ Hm Hn) as (h & t & _ & Hd1 & Hn1 & _).
  destruct (next_heading _ events Hd) as [Hin Hopp].
  rewrite Hd1. auto.
Qed.

Lemma no_reversal_in_a_pass_witness :
  let st := mkLocals (Snake.mk SCREEN_CENTER SNAKE_COLOR 1 0%nat RIGHT None None)
                     (Apple.mk (0, 0) APPLE_COLOR 0%nat) 10 1 in
  let m := mkMem [[SCREEN_CENTER]] [] in
  exists st1 m1,
    tick_move [KEYDOWN K_UP; KEYDOWN K_LEFT] st m = Ok (st1, m1) /\
    Snake.direction (snake st1) = UP /\
    Snake.direction (snake st1) <> opposite RIGHT.
Proof.
  intros st m.
  destruct (tick_move [KEYDOWN K_UP; KEYDOWN K_LEFT] st m) as [[st1 m1]|] eqn:Hm;
    [|vm_compute in Hm; discriminate].
  assert (Hd : Snake.direction (snake st) ∈ directions)
    by (vm_compute; repeat constructor).
  destruct (no_reversal_in_a_pass _ st st1 m m1 eq_refl Hd Hm) as (_ & Hopp & _).
  exists st1, m1. split; [reflexivity|]. split; [|exact Hopp].
  vm_compute in Hm. injection Hm as <- <-. reflexivity.
Defined.

(** X18.  In [main] the self-collision test can only succeed on a snake of
    at least five cells: when, on some pass, the head is found among the
    other cells of the body, the body has at least five cells, and so
    [snake.length] and [record_length] are at least 5 when the snake is
    reset. *)
Theorem reset_needs_five_cells
    (inputs : list (list Event)) (m0 m m1 m2 m2' : Mem) (st st1 st2 : Locals)
    (events : list Event) :
  main inputs m0 = Ok (st, m) ->
  tick_move events st m = Ok (st1, m1) ->
  tick_eat st1 m1 = Ok (st2, m2) ->
  collides_with_self (snake st2) m2 = Ok (true, m2') ->
  exists ps,
    body (snake st2) m2 = Some ps /\
    (5 <= List.length ps)%nat /\
    5 <= Snake.length (snake st2) <= record_length st2.
Proof.
  intros Hmain H1 H2 Hc. apply main_inv_holds in Hmain.
  pose proof (tick_move_mid _ _ _ _ _ Hmain H1) as Hmid.
  destruct (tick_eat_mid _ _ _ _ _ Hmid H2)
    as (grown & Hgr & ((a0 & rest & Hb & _ & Hg & Hl & Hf1 & Hf & Hlen & _)
                       & Hd & Hdir & Hopp & _ & _ & _ & _ & Hrec) & _).
  rewrite (collides_with_self_run _ _ _ _ Hb) in Hc. injection Hc as Hc _.
  apply bool_decide_eq_true in Hc.
  pose proof (no_bite_short a0 rest _ _ Hg Hl Hf1 Hf Hdir Hd Hopp Hc) as H4.
  exists (a0 :: rest). split; [exact Hb|].
  cbn [List.length] in *. split; [lia|]. destruct Hgr; subst grown; lia.
Qed.

Lemma reset_needs_five_cells_witness :
  exists st m st1 m1 ps,
    main (take 6 tight_loop_inputs) (mkMem [] tight_loop_tape) = Ok (st, m) /\
    tick_move [KEYDOWN K_DOWN] st m = Ok (st1, m1) /\
    tick_eat st1 m1 = Ok (st1, m1) /\
    collides_with_self (snake st1) m1 = Ok (true, m1) /\
    body (snake st1) m1 = Some ps /\
    (5 <= List.length ps)%nat.
Proof.
  destruct (main (take 6 tight_loop_inputs) (mkMem [] tight_loop_tape))
    as [[st m]|] eqn:Hm; [|vm_compute in Hm; discriminate].
  destruct (tick_move [KEYDOWN K_DOWN] st m) as [[st1 m1]|] eqn:H1;
    [|vm_compute in Hm; injection Hm as <- <-; vm_compute in H1; discriminate].
  assert (H2 : tick_eat st1 m1 = Ok (st1, m1)).
  { vm_compute in Hm. injection Hm as <- <-.
    vm_compute in H1. injection H1 as <- <-. vm_compute. reflexivity. }
  assert (Hc : collides_with_self (snake st1) m1 = Ok (true, m1)).
  { vm_compute in Hm. injection Hm as <- <-.
    vm_compute in H1. injection H1 as <- <-. vm_compute. reflexivity. }
  destruct (reset_needs_five_cells _ _ _ _ _ _ _ _ _ _ Hm H1 H2 Hc)
    as (ps & Hb & H5 & _).
  exists st, m, st1, m1, ps. auto 10.
Defined.

(** X20.  [main] never gives the apple another list: once the snake has
    been reset, so that its body is a list object other than the one the
    apple refers to, this stays so after every later pass. *)
Theorem alias_never_restored
    (inputs : list (list Event)) (m0 m m' : Mem) (st st' : Locals)
    (events : list Event) :
  main inputs m0 = Ok (st, m) ->
  Apple.occupied_positions (apple st) <> Snake.positions (snake st) ->
  tick events st m = Ok (st', m') ->
  Apple.occupied_positions (apple st') = Apple.occupied_positions (apple st) /\
  Apple.occupied_positions (apple st') <> Snake.positions (snake st').
Proof.
  intros Hmain Hne Ht. apply main_inv_holds in Hmain.
  apply tick_Ok in Ht as (st1 & m1 & st2 & m2 & H1 & H2 & H3).
  pose proof (tick_move_mid _ _ _ _ _ Hmain H1) as Hmid.
  destruct (tick_eat_mid _ _ _ _ _ Hmid H2)
    as (grown & _ & (_ & _ & _ & _ & _ & _ & Hocc & _) & _).
  apply tick_move_Ok in H1 as (_ & _ & _ & _ & Ha1 & _ & _ & Hp1 & _).
  apply tick_eat_Ok in H2 as (h & t & _ & _ & _ & He).
  assert (H12 : Apple.occupied_positions (apple st2) = Apple.occupied_positions (apple st)
                /\ Snake.positions (snake st2) = Snake.positions (snake st)).
  { destruct (decide _).
    - destruct He as (Hs & _ & Hr).
      apply randomize_position_Ok in Hr as (_ & _ & _ & Hset & _).
      rewrite Hs, Hset. cbn [Apple.occupied_positions Apple.set_position
                             Snake.positions Snake.set_length].
      now rewrite Ha1.
    - destruct He as [-> _]. now rewrite Ha1. }
  destruct H12 as [Ho2 Hp2].
  apply tick_collide_Ok in H3 as (h' & t' & _ & _ & _ & _ & Hc).
  destruct (decide (h' ∈ t')).
  - destruct Hc as (mr & Hreset & Hrand).
    apply reset_Ok_full in Hreset as (_ & _ & _ & _ & Hpr & _).
    apply randomize_position_Ok in Hrand as (_ & _ & _ & Hset & _).
    rewrite Hset. cbn [Apple.occupied_positions Apple.set_position].
    split; [exact Ho2|]. rewrite Hpr. destruct Hocc as [l Hl].
    apply lookup_lt_Some in Hl. lia.
  - destruct Hc as [-> _]. split; [exact Ho2|]. congruence.
Qed.

Lemma alias_never_restored_witness :
  exists st m st' m',
    main tight_loop_inputs (mkMem [] (tight_loop_tape ++ [5; 5])) = Ok (st, m) /\
    Apple.occupied_positions (apple st) <> Snake.positions (snake st) /\
    tick [] st m = Ok (st', m') /\
    Apple.occupied_positions (apple st') <> Snake.positions (snake st').
Proof.
  destruct (main tight_loop_inputs (mkMem [] (tight_loop_tape ++ [5; 5])))
    as [[st m]|] eqn:Hm; [|vm_compute in Hm; discriminate].
  destruct (tick [] st m) as [[st' m']|] eqn:Ht;
    [|vm_compute in Hm; injection Hm as <- <-; vm_compute in Ht; discriminate].
  assert (Hne : Apple.occupied_positions (apple st) <> Snake.positions (snake st))
    by (vm_compute in Hm; injection Hm as <- <-; vm_compute; discriminate).
  destruct (alias_never_restored _ _ _ _ _ _ _ Hm Hne Ht) as [_ Hne'].
  exists st, m, st', m'. auto.
Defined.

(** ** How main can stop *)

Lemma handle_keys_Halt (events : list Event) (snake : Snake.t) (speed : Z)
      (m : Mem) (h : halt) :
  handle_keys snake speed events m = Halt h -> h = SystemExit.
Proof.
  destruct (existsb is_quit events) eqn:Hq.
  - rewrite (handle_keys_quit _ _ _ _ Hq). now intros [= <-].
  - destruct (handle_keys_total events snake speed m Hq) as (s & sp & ->).
    discriminate.
Qed.

Lemma randomize_rounds_Halt (fuel : nat) (a : Apple.t) (m : Mem) (h : halt) :
  is_Some (heap m !! Apple.occupied_positions a) ->
  Apple.randomize_rounds fuel a m = Halt h -> h = TapeExhausted.
Proof.
  intros [occ Ho]. revert m Ho. induction fuel as [|fuel IH]; intros m Ho.
  - now intros [= <-].
  - destruct (tape m) as [|r1 [|r2 t]] eqn:Ht.
    + rewrite randomize_rounds_short by (rewrite Ht; cbn; lia). now intros [= <-].
    + rewrite randomize_rounds_short by (rewrite Ht; cbn; lia). now intros [= <-].
    + rewrite (randomize_rounds_unroll _ _ _ _ _ _ _ Ht Ho).
      destruct (decide _); [|discriminate]. now apply IH.
Qed.

Lemma tick_move_progress (events : list Event) (st : Locals) (m : Mem) :
  main_inv st m ->
  (exists st1 m1, tick_move events st m = Ok (st1, m1)) \/
  tick_move events st m = Halt SystemExit.
Proof.
  intros ((ps & Hb & Hne & _) & _).
  unfold tick_move. rewrite bind_run.
  destruct (handle_keys (snake st) (speed st) events m) as [[[s sp] m']|h] eqn:Hk.
  - left. apply handle_keys_Ok in Hk as [-> ->].
    destruct ps as [|p ps]; [congruence|].
    set (s0 := Snake.update_direction _).
    assert (Hb0 : body s0 m = Some (p :: ps)).
    { subst s0. unfold body, Snake.update_direction in *.
      now destruct (Snake.next_direction (Snake.set_next_direction _ _)). }
    destruct (move_effect s0 m p ps Hb0) as (s1 & m1 & Hm & _).
    rewrite bind_run, Hm. eexists _, _. reflexivity.
  - right. now rewrite (handle_keys_Halt _ _ _ _ _ Hk).
Qed.

Lemma tick_eat_progress (d : POINTER) (st : Locals) (m : Mem) :
  mid_inv d 0 st m ->
  (exists st2 m2, tick_eat st m = Ok (st2, m2)) \/
  tick_eat st m = Halt TapeExhausted.
Proof.
  intros ((a0 & rest & Hb & _) & _ & _ & _ & _ & _ & Hocc & _).
  unfold tick_eat. rewrite bind_run, (get_head_position_run _ _ _ _ Hb).
  destruct (decide _); [|left; eexists _, _; reflexivity].
  rewrite bind_run.
  destruct (Apple.randomize_position (apple st) m) as [[a' m']|h] eqn:Hr.
  - left. eexists _, _. reflexivity.
  - right. now rewrite (randomize_rounds_Halt _ _ _ _ Hocc Hr).
Qed.

Lemma tick_collide_progress (d : POINTER) (grown : Z) (st : Locals) (m : Mem) :
  mid_inv d grown st m ->
  (exists st3 m3, tick_collide st m = Ok (st3, m3)) \/
  tick_collide st m = Halt TapeExhausted.
Proof.
  intros ((a0 & rest & Hb & _) & _ & _ & _ & _ & _ & Hocc & _).
  unfold tick_collide. rewrite bind_run, (collides_with_self_run _ _ _ _ Hb).
  destruct (bool_decide _); [|left; eexists _, _; reflexivity].
  rewrite bind_run, reset_run.
  destruct (tape m) as [|r t]; [now right|].
  rewrite bind_run.
  match goal with |- context [Apple.randomize_position ?a ?mm] =>
    destruct (Apple.randomize_position a mm) as [[a' m']|h] eqn:Hr end.
  - left. eexists _, _. reflexivity.
  - right.
    assert (Hs : is_Some (heap (mkMem (heap m ++ [[SCREEN_CENTER]]) t)
                          !! Apple.occupied_positions (apple st)))
      by (cbn [heap]; destruct Hocc as [l Hl]; exists l; now apply lookup_app_l_Some).
    now rewrite (randomize_rounds_Halt _ _ _ _ Hs Hr).
Qed.

Lemma tick_draw_progress (st : Locals) (m : Mem) :
  main_inv st m -> exists cmds, tick_draw st m = Ok (cmds, m).
Proof.
  intros ((ps & Hb & Hne & _) & _). destruct ps as [|p ps]; [congruence|].
  destruct (draw_run _ _ _ _ Hb) as (cmds & Hd).
  unfold tick_draw. rewrite bind_run, Hd. eexists. reflexivity.
Qed.

Lemma tick_progress (events : list Event) (st : Locals) (m : Mem) :
  main_inv st m ->
  (exists st' m', tick events st m = Ok (st', m')) \/
  tick events st m = Halt SystemExit \/
  tick events st m = Halt TapeExhausted.
Proof.
  intros Hinv. unfold tick. rewrite bind_run.
  destruct (tick_move_progress events st m Hinv) as [(st1 & m1 & H1)|H1];
    rewrite H1; [|auto].
  pose proof (tick_move_mid _ _ _ _ _ Hinv H1) as Hmid.
  rewrite bind_run.
  destruct (tick_eat_progress _ _ _ Hmid) as [(st2 & m2 & H2)|H2];
    rewrite H2; [|auto].
  destruct (tick_eat_mid _ _ _ _ _ Hmid H2) as (grown & Hgr & Hmid2 & _ & Hfood).
  rewrite bind_run.
  destruct (tick_collide_progress _ _ _ _ Hmid2) as [(st3 & m3 & H3)|H3];
    rewrite H3; [|auto].
  pose proof (tick_collide_main _ _ _ _ _ _ Hgr Hmid2 Hfood H3) as Hinv3.
  destruct (tick_draw_progress _ _ Hinv3) as (cmds & Hd).
  rewrite bind_run, Hd. left. eexists _, _. reflexivity.
Qed.

Lemma main_loop_progress (inputs : list (list Event)) (st : Locals) (m : Mem) :
  main_inv st m ->
  (exists st' m', main_loop inputs st m = Ok (st', m')) \/
  main_loop inputs st m = Halt SystemExit \/
  main_loop inputs st m = Halt TapeExhausted.
Proof.
  revert st m. induction inputs as [|events rest IH]; intros st m Hinv.
  - left. eexists _, _. reflexivity.
  - cbn [main_loop]. rewrite bind_run.
    destruct (tick_progress events st m Hinv) as [(st1 & m1 & Ht)|[Ht|Ht]];
      rewrite Ht; [|auto..].
    apply IH. eapply tick_main_inv; eauto.
Qed.

Lemma main_setup_progress (m : Mem) :
  (exists st m', main_setup m = Ok (st, m')) \/
  main_setup m = Halt TapeExhausted.
Proof.
  unfold main_setup. rewrite bind_run, init_run.
  destruct (tape m) as [|r t]; [now right|].
  rewrite bind_run. unfold Apple.init. rewrite bind_run, ret_run.
  match goal with |- context [Apple.randomize_position ?a ?mm] =>
    destruct (Apple.randomize_position a mm) as [[a' m']|h] eqn:Hr end.
  - left. eexists _, _. reflexivity.
  - right.
    match type of Hr with Apple.randomize_position ?a ?mm = _ =>
      assert (Hs : is_Some (heap mm !! Apple.occupied_positions a))
        by (cbn [Apple.occupied_positions Snake.positions heap];
            exists [SCREEN_CENTER]; apply lookup_fresh) end.
    now rewrite (randomize_rounds_Halt _ _ _ _ Hs Hr).
Qed.

(** X19.  A run of [main] stops in two ways only: with [SystemExit], raised
    on a quit event, or because the draws supplied ran out.  In particular
    no access to [positions[0]] and no [pop] ever raises [IndexError],
    whatever the events and the draws. *)
Theorem main_raises_only_SystemExit
    (inputs : list (list Event)) (m0 : Mem) (h : halt) :
  main inputs m0 = Halt h ->
  h = SystemExit \/ h = TapeExhausted.
Proof.
  unfold main. rewrite bind_run.
  destruct (main_setup_progress m0) as [(st & m & Hs)|Hs]; rewrite Hs.
  - destruct (main_loop_progress inputs st m (main_setup_inv _ _ _ Hs))
      as [(st' & m' & Hl)|[Hl|Hl]]; rewrite Hl; [discriminate| |];
      intros [= <-]; auto.
  - intros [= <-]. auto.
Qed.

Lemma main_raises_only_SystemExit_witness :
  main [[]; [KEYDOWN K_UP; QUIT]; []] (mkMem [] [3; 0; 0]) = Halt SystemExit /\
  (SystemExit = SystemExit \/ SystemExit = TapeExhausted).
Proof.
  assert (Hm : main [[]; [KEYDOWN K_UP; QUIT]; []] (mkMem [] [3; 0; 0])
               = Halt SystemExit) by (vm_compute; reflexivity).
  split; [exact Hm|]. exact (main_raises_only_SystemExit _ _ _ Hm).
Defined.

(** X21.  A pass on which the new head is neither on the apple nor on the
    body ends right after the move: the apple, [snake.length] and
    [record_length] are as before the pass and no random draw is taken. *)
Theorem quiet_pass_only_moves
    (events : list Event) (st st' : Locals) (m m' : Mem) :
  tick events st m = Ok (st', m') ->
  exists st1 m1 h1 t1,
    tick_move events st m = Ok (st1, m1) /\
    body (snake st1) m1 = Some (h1 :: t1) /\
    (h1 <> Apple.position (apple st) ->
     (h1 ∉ t1) ->
     st' = st1 /\ m' = m1 /\
     apple st' = apple st /\
     tape m' = tape m /\
     Snake.length (snake st') = Snake.length (snake st) /\
     record_length st' = record_length st).
Proof.
  intros Ht. apply tick_Ok in Ht as (st1 & m1 & st2 & m2 & H1 & H2 & H3).
  pose proof (tick_move_Ok _ _ _ _ _ H1)
    as (_ & _ & _ & _ & Ha1 & Hr1 & Hl1 & _ & Htape & _).
  apply tick_eat_Ok in H2 as (h1 & t1 & Hb1 & _ & _ & He).
  exists st1, m1, h1, t1. split; [exact H1|]. split; [exact Hb1|].
  intros Hne Hout. rewrite Ha1 in He.
  rewrite decide_False in He by exact Hne. destruct He as [-> ->].
  apply tick_collide_Ok in H3 as (h' & t' & Hb' & _ & _ & _ & Hc).
  rewrite Hb1 in Hb'. injection Hb' as <- <-.
  rewrite decide_False in Hc by exact Hout. destruct Hc as [-> ->]. auto 10.
Qed.

Lemma quiet_pass_only_moves_witness :
  let st := mkLocals (Snake.mk SCREEN_CENTER SNAKE_COLOR 1 0%nat RIGHT None None)
                     (Apple.mk (0, 0) APPLE_COLOR 0%nat) 10 1 in
  let m := mkMem [[SCREEN_CENTER]] [4; 4] in
  exists st' m',
    tick [] st m = Ok (st', m') /\
    body (snake st') m' = Some [(340, 240)] /\
    apple st' = apple st /\
    tape m' = [4; 4].
Proof.
  intros st m.
  destruct (tick [] st m) as [[st' m']|] eqn:Ht; [|vm_compute in Ht; discriminate].
  destruct (quiet_pass_only_moves [] st st' m m' Ht)
    as (st1 & m1 & h1 & t1 & H1 & Hb1 & Hq).
  assert (E : tick_move [] st m
              = Ok (mkLocals (Snake.mk SCREEN_CENTER SNAKE_COLOR 1 0%nat RIGHT None
                                       (Some SCREEN_CENTER))
                             (Apple.mk (0, 0) APPLE_COLOR 0%nat) 10 1,
                    mkMem [[(340, 240)]] [4; 4])) by (vm_compute; reflexivity).
  rewrite E in H1. injection H1 as <- <-.
  vm_compute in Hb1. injection Hb1 as <- <-.
  destruct Hq as (Es & Em & Ha & Htp & _); [discriminate|inversion 1|].
  exists st', m'. split; [reflexivity|]. split; [|auto].
  rewrite Es, Em. reflexivity.
Defined.
